(** * gFoods: the NCBI synonym scraper ([scrape_ncbi_synonyms.py])

    A shallow embedding of the name normalizer, the candidate-query
    generator, the two XML readers and the row pipeline of [main], with
    the properties the specification states about them.

    Conventions of the embedding.
    - A Python [str] is a [string]; every [ascii] stands for the code
      point of the same number, so the strings covered are those over
      code points 0..255.  [str.isspace] and [str.lower] are written out
      for that range.
    - A Python [int] is a [Z].
    - A [dict] is a [gmap]; where the order of the keys is observed
      ([OrderedDict]) it is the list of its keys in insertion order.
    - A CSV row, as [csv.DictReader] hands it over, is a finite map from
      column names to strings.  The reader fills the cells missing from a
      line shorter than the header with [None].  For a column that is only
      copied the writer turns [None] into the empty cell, which is what a
      column without a cell gives here.  For [food_sci] and [food_com] the
      pre-scan calls [replace] on [None] and the run ends in
      [AttributeError] before any request.  Such files are not covered:
      where a statement says that a run writes its table, the rows are
      those of a file in which every line has its two name cells.
    - [None] of an [Optional[str]] is [None] of [option string].
    - The remote service and the XML parser are the environment: a
      request is answered from the history of the run so far. *)

From stdpp Require Import gmap strings list pretty.
From Stdlib Require Import ZArith Ascii String.

#[local] Set Warnings "-clear-no-such-hyp".

Local Open Scope string_scope.
Local Open Scope Z_scope.
Local Open Scope list_scope.

(** ** Python string operations *)

Module PyStr.

Definition chars (s : string) : list ascii := list_ascii_of_string s.
Definition of_chars (l : list ascii) : string := string_of_list_ascii l.

(** Truth value of a string: non-empty. *)
Definition truthy (s : string) : bool :=
  match s with EmptyString => false | String _ _ => true end.

(** [str.isspace] on one code point below 256: TAB..CR, FS..US, space,
    NEL and the no-break space. *)
Definition is_space (c : ascii) : bool :=
  let n := N_of_ascii c in
  ((9 <=? n) && (n <=? 13) || (28 <=? n) && (n <=? 32)
   || (n =? 133) || (n =? 160))%N.

(** [str.lower] on one code point below 256: A..Z and the capital
    letters of Latin-1 (all of 192..222 but the multiplication sign). *)
Definition lower_char (c : ascii) : ascii :=
  let n := N_of_ascii c in
  if ((65 <=? n) && (n <=? 90)
      || (192 <=? n) && (n <=? 222) && negb (n =? 215))%N
  then ascii_of_N (n + 32) else c.

Definition lower (s : string) : string := of_chars (lower_char <$> chars s).

(** [s.replace(old, new)] for one-character [old] and [new]. *)
Definition replace_char (old new : ascii) (s : string) : string :=
  of_chars ((λ c, if decide (c = old) then new else c) <$> chars s).

Fixpoint lstrip_chars (l : list ascii) : list ascii :=
  match l with
  | [] => []
  | c :: l' => if is_space c then lstrip_chars l' else l
  end.

Definition rstrip_chars (l : list ascii) : list ascii :=
  reverse (lstrip_chars (reverse l)).

Definition strip_chars (l : list ascii) : list ascii :=
  rstrip_chars (lstrip_chars l).

(** [s.strip()] *)
Definition strip (s : string) : string := of_chars (strip_chars (chars s)).

(** [s.endswith(suffix)] *)
Definition endswith (s suffix : string) : bool :=
  bool_decide (chars suffix `suffix_of` chars s).

(** [s[:-1]] *)
Definition drop_last (s : string) : string :=
  of_chars (take (List.length (chars s) - 1)%nat (chars s)).

(** The part of [l] before the last [sep], when [sep] occurs in [l]. *)
Fixpoint before_last (sep : ascii) (l : list ascii) : option (list ascii) :=
  match l with
  | [] => None
  | c :: l' =>
      match before_last sep l' with
      | Some p => Some (c :: p)
      | None => if decide (c = sep) then Some [] else None
      end
  end.

(** [s.rsplit(sep, 1)[0]] for a one-character [sep]: the text before
    the last [sep], or all of [s] when it has none. *)
Definition rsplit1_head (sep : ascii) (s : string) : string :=
  match before_last sep (chars s) with
  | Some p => of_chars p
  | None => s
  end.

(** [sep.join(parts)] *)
Definition join (sep : string) (parts : list string) : string :=
  String.concat sep parts.

(** [str(n)] for an [int]. *)
Definition str_of_int (n : Z) : string := pretty n.

End PyStr.

(** [list(OrderedDict.fromkeys(keys))]: every key is entered in turn; a
    key already present keeps its place. *)
Definition ordered_insert (ordered : list string) (k : string) : list string :=
  if decide (k ∈ ordered) then ordered else ordered ++ [k].

Definition ordered_fromkeys (keys : list string) : list string :=
  foldl ordered_insert [] keys.

(** ** Name normalizer *)

Definition format_scientific_name (name : string) : string :=
  PyStr.strip (PyStr.replace_char "_" " " name).

Definition format_common_name (name : string) : string :=
  PyStr.strip (PyStr.replace_char "_" " " name).

(** The identity key, a pair of a tag and a text. *)
Abbreviation Key := (string * string)%type.

Definition build_key (scientific common : string) (fallback_index : Z) : Key :=
  let sci := format_scientific_name scientific in
  if PyStr.truthy sci then ("sci", sci)
  else
    let com := format_common_name common in
    if PyStr.truthy com then ("com", com)
    else ("row", PyStr.str_of_int fallback_index).

(** ** Query candidate generator *)

Definition species_placeholder (lower : string) : bool :=
  PyStr.endswith lower " sp." || PyStr.endswith lower " sp"
  || PyStr.endswith lower " spp." || PyStr.endswith lower " spp".

(** The list [candidates] as it stands before the final comprehension. *)
Definition raw_candidates (scientific common : string) : list string :=
  let candidates : list string := [] in
  let sci := format_scientific_name scientific in
  let com := format_common_name common in
  let candidates :=
    if PyStr.truthy sci then
      let candidates := candidates ++ [sci] in
      let candidates :=
        if PyStr.endswith sci "." then candidates ++ [PyStr.drop_last sci]
        else candidates in
      let lower := PyStr.lower sci in
      if species_placeholder lower
      then candidates ++ [PyStr.rsplit1_head " " sci]
      else candidates
    else candidates in
  if PyStr.truthy com then candidates ++ [com] else candidates.

Definition candidate_queries (scientific common : string) : list string :=
  ordered_fromkeys (filter (λ c, PyStr.truthy c = true) (raw_candidates scientific common)).

(** ** XML trees, as [xml.etree.ElementTree] presents them *)

#[warnings="-register-all"]
Inductive Element : Type :=
  Elem (tag : string) (text : option string) (children : list Element).

Definition tag (e : Element) : string := let 'Elem t _ _ := e in t.
Definition text (e : Element) : option string := let 'Elem _ x _ := e in x.
Definition children (e : Element) : list Element := let 'Elem _ _ c := e in c.

(** [e.findall(name)]: the direct children called [name], in document order. *)
Definition findall (e : Element) (name : string) : list Element :=
  filter (λ c, tag c = name) (children e).

(** [e.find(name)]: the first direct child called [name]. *)
Definition find (e : Element) (name : string) : option Element :=
  head (findall e name).

(** [e.findtext(name)]: the text of that child, the empty string when the
    child has no text, [None] when there is no such child. *)
Definition findtext (e : Element) (name : string) : option string :=
  match find e name with
  | None => None
  | Some c => Some (default "" (text c))
  end.

(** What [ElementTree.fromstring] makes of a response body: it raises
    [ParseError] on text that is not well-formed XML and returns the root
    element otherwise.  The parser itself is not part of the program. *)
Inductive xml : Type :=
  | NotWellFormed
  | WellFormed (root : Element).

(** ** Exceptions and results *)

Inductive exn : Type :=
  SystemExit | ValueError | IndexError | KeyError | ParseError.

Inductive result (A : Type) : Type :=
  | Ok (a : A)
  | Raise (e : exn).
Arguments Ok {A} a.
Arguments Raise {A} e.

Definition fromstring {A} (body : xml) (k : Element → result A) : result A :=
  match body with
  | NotWellFormed => Raise ParseError
  | WellFormed root => k root
  end.

(** Truth value of an [Optional[str]]. *)
Definition truthy_opt (o : option string) : bool :=
  match o with Some s => PyStr.truthy s | None => false end.

(** ** Taxonomy resolver: reading the search response (lines 90-98) *)

Fixpoint first_id (ids : list Element) : option string :=
  match ids with
  | [] => None
  | id_elem :: rest =>
      if truthy_opt (text id_elem)
      then Some (PyStr.strip (default "" (text id_elem)))
      else first_id rest
  end.

Definition search_taxid_read (body : xml) : result (option string) :=
  fromstring body (λ root,
    match find root "IdList" with
    | None => Ok None
    | Some id_list => Ok (first_id (findall id_list "Id"))
    end).

(** ** Synonym fetcher: [extract_synonyms] (lines 101-138) *)

Definition synonym_tags : list string :=
  ["Synonym"; "EquivalentName"; "GenbankSynonym"; "GenbankCommonName"; "CommonName"].

(** One turn of the inner loop of lines 121-124. *)
Definition collect_elem (values : list string) (elem : Element) : list string :=
  let text := if truthy_opt (text elem) then PyStr.strip (default "" (text elem)) else "" in
  if PyStr.truthy text then values ++ [text] else values.

(** One turn of the outer loop of line 120. *)
Definition collect_tag (other_names : Element) (values : list string) (tag : string)
  : list string :=
  foldl collect_elem values (findall other_names tag).

(** One turn of the loop of lines 126-129. *)
Definition collect_name (values : list string) (name_elem : Element) : list string :=
  let disp := findtext name_elem "DispName" in
  if truthy_opt disp then values ++ [PyStr.strip (default "" disp)] else values.

(** One turn of the loop of lines 133-136; [ordered] is the key list of
    the ordered dictionary. *)
Definition dedup_step (ordered : list string) (value : string) : list string :=
  let cleaned := PyStr.strip value in
  if PyStr.truthy cleaned && negb (bool_decide (cleaned ∈ ordered))
  then ordered ++ [cleaned] else ordered.

(** The list [values] when line 131 is reached. *)
Definition collected_values (other_names : Element) : list string :=
  let values : list string := [] in
  let values := foldl (collect_tag other_names) values synonym_tags in
  foldl collect_name values (findall other_names "Name").

Definition extract_synonyms (xml_text : xml) : result (list string) :=
  fromstring xml_text (λ root,
    match find root "Taxon" with
    | None => Ok []
    | Some taxon =>
        match find taxon "OtherNames" with
        | None => Ok []
        | Some other_names =>
            Ok (foldl dedup_step [] (collected_values other_names))
        end
    end).

(** ** The environment of a run *)

(** The outcome of [SESSION.get] followed by [raise_for_status]: a
    [requests.RequestException], or a response whose body the parser has
    classified. *)
Inductive http : Type :=
  | RequestException
  | Response (body : xml).

(** What a run does that can be seen from outside, in order.  [Resolve key]
    is not an effect of the program: it records that the candidate loop of
    line 220 is entered for [key]. *)
Inductive event : Type :=
  | Search (query : string)
  | Fetch (taxid : string)
  | Sleep
  | Resolve (key : Key).

(** The remote service.  Its answer may depend on everything that happened
    before the request; [esearch] is given the [term] parameter and
    [efetch] the [id] parameter. *)
Record Net : Type := {
  esearch : list event → string → http;
  efetch : list event → string → http;
}.

(** A CSV row: column name to cell.  Every cell is a string: the [None]
    that [csv.DictReader] puts in the cells missing from a short line has
    no counterpart. *)
Abbreviation Row := (gmap string string).

(** The input file as [csv.DictReader] presents it: [fieldnames] is [None]
    for the empty file and the list of the cells of the first line
    otherwise (the empty list when that line is blank); [records] are the
    rows that follow, each with a string in the [food_sci] and [food_com]
    cells it has. *)
Record Reader : Type := {
  fieldnames : option (list string);
  records : list Row;
}.

Definition OPEN_TREE_FIELD : string := "synonyms_open_tree_of_life".
Definition WIKI_FIELD : string := "synonyms_wiki_search".
Definition NCBI_FIELD : string := "synonyms_ncbi".

(** ** The state of [main] and its monad *)

Record State : Type := {
  trace : list event;
  query_cache : gmap string (option string);
  taxid_cache : gmap Key (option string);
  synonym_cache : gmap string string;
  updated_rows : list Row;
}.

Definition initial_state : State :=
  {| trace := []; query_cache := ∅; taxid_cache := ∅; synonym_cache := ∅;
     updated_rows := [] |}.

Definition M (A : Type) : Type := State → State * result A.

Definition ret {A} (a : A) : M A := λ st, (st, Ok a).
Definition raise {A} (e : exn) : M A := λ st, (st, Raise e).
Definition bind {A B} (m : M A) (k : A → M B) : M B := λ st,
  match m st with
  | (st', Ok a) => k a st'
  | (st', Raise e) => (st', Raise e)
  end.

#[global] Instance M_ret : MRet M := @ret.
#[global] Instance M_bind : MBind M := λ A B k m, bind m k.

Definition get_state : M State := λ st, (st, Ok st).
Definition lift {A} (r : result A) : M A := λ st, (st, r).
Definition emit (e : event) : M unit := λ st,
  ({| trace := trace st ++ [e]; query_cache := query_cache st;
      taxid_cache := taxid_cache st; synonym_cache := synonym_cache st;
      updated_rows := updated_rows st |}, Ok ()).
Definition set_query_cache (query : string) (v : option string) : M unit := λ st,
  ({| trace := trace st; query_cache := <[query := v]> (query_cache st);
      taxid_cache := taxid_cache st; synonym_cache := synonym_cache st;
      updated_rows := updated_rows st |}, Ok ()).
Definition set_taxid_cache (key : Key) (v : option string) : M unit := λ st,
  ({| trace := trace st; query_cache := query_cache st;
      taxid_cache := <[key := v]> (taxid_cache st);
      synonym_cache := synonym_cache st; updated_rows := updated_rows st |}, Ok ()).
Definition set_synonym_cache (taxid : string) (v : string) : M unit := λ st,
  ({| trace := trace st; query_cache := query_cache st;
      taxid_cache := taxid_cache st;
      synonym_cache := <[taxid := v]> (synonym_cache st);
      updated_rows := updated_rows st |}, Ok ()).
Definition append_row (r : Row) : M unit := λ st,
  ({| trace := trace st; query_cache := query_cache st;
      taxid_cache := taxid_cache st; synonym_cache := synonym_cache st;
      updated_rows := updated_rows st ++ [r] |}, Ok ()).

(** [d[k]]: [KeyError] when [k] is not in [d]. *)
Definition subscript `{Countable K} {V} (d : gmap K V) (k : K) : M V :=
  match d !! k with
  | Some v => ret v
  | None => raise KeyError
  end.

Fixpoint for_each {A} (l : list A) (body : A → M unit) : M unit :=
  match l with
  | [] => ret ()
  | x :: l' => body x;; for_each l' body
  end.

(** ** The two remote calls (lines 73-98 and 141-158) *)

Definition search_taxid (net : Net) (query : string) : M (option string) :=
  st ← get_state;
  let response := esearch net (trace st) (query ++ "[All Names]")%string in
  emit (Search query);;
  match response with
  | RequestException => ret None
  | Response body => lift (search_taxid_read body)
  end.

Definition fetch_synonyms_for_taxid (net : Net) (taxid : string) : M (list string) :=
  st ← get_state;
  let response := efetch net (trace st) taxid in
  emit (Fetch taxid);;
  match response with
  | RequestException => ret []
  | Response body => lift (extract_synonyms body)
  end.

(** ** Row pipeline: [main] (lines 161-261)

    The progress messages are left out: they read the state and change
    nothing. *)

(** [l[:stop]] *)
Definition slice_to {A} (l : list A) (stop : Z) : list A :=
  if stop <? 0 then take (Z.to_nat (Z.of_nat (List.length l) + stop)) l
  else take (Z.to_nat stop) l.

(** [enumerate(l, start)] *)
Fixpoint enumerate {A} (start : Z) (l : list A) : list (Z * A) :=
  match l with
  | [] => []
  | x :: l' => (start, x) :: enumerate (start + 1) l'
  end.

(** [row.get(k, "")], for a row whose cell [k], when it has one, is a
    string. *)
Definition row_get (row : Row) (k : string) : string := default "" (row !! k).

(** [d.setdefault(k, v)], for its effect on [d]. *)
Definition setdefault (d : gmap Key (list string)) (k : Key) (v : list string)
  : gmap Key (list string) :=
  match d !! k with
  | Some _ => d
  | None => <[k := v]> d
  end.

(** The key of a row as the pre-scan computes it (lines 183-185), [idx]
    being the loop variable of [enumerate(rows)]. *)
Definition prescan_key (idx : Z) (row : Row) : Key :=
  let scientific_raw := row_get row "food_sci" in
  let common_raw := row_get row "food_com" in
  build_key scientific_raw common_raw idx.

(** The key of a row as the main pass computes it (lines 209-211), [idx]
    being the loop variable of [enumerate(rows, start=1)]. *)
Definition main_pass_key (idx : Z) (row : Row) : Key :=
  let scientific_raw := row_get row "food_sci" in
  let common_raw := row_get row "food_com" in
  build_key scientific_raw common_raw (idx - 1).

Definition row_queries (row : Row) : list string :=
  let scientific_raw := row_get row "food_sci" in
  let common_raw := row_get row "food_com" in
  candidate_queries scientific_raw common_raw.

(** One turn of the pre-scan (lines 183-188). *)
Definition prescan_step (name_candidates : gmap Key (list string)) (p : Z * Row)
  : gmap Key (list string) :=
  let '(idx, row) := p in
  let key := prescan_key idx row in
  let queries := row_queries row in
  match queries with
  | [] => name_candidates
  | _ :: _ => setdefault name_candidates key queries
  end.

Definition prescan (rows : list Row) : gmap Key (list string) :=
  foldl prescan_step ∅ (enumerate 0 rows).

(** The candidate loop of lines 220-226; [taxid] is the variable of that
    name, and leaving the recursion with a truthy value is the [break]. *)
Fixpoint resolve_loop (net : Net) (queries : list string) (taxid : option string)
  : M (option string) :=
  match queries with
  | [] => ret taxid
  | query :: rest =>
      st ← get_state;
      (if decide (query_cache st !! query = None) then
         found ← search_taxid net query;
         set_query_cache query found;;
         emit Sleep
       else ret ());;
      st ← get_state;
      taxid ← subscript (query_cache st) query;
      if truthy_opt taxid then ret taxid else resolve_loop net rest taxid
  end.

(** The dictionary literal of lines 237-244: a later entry with the same
    key replaces the value of an earlier one. *)
Definition output_row (index_field : string) (row : Row) (synonyms_ncbi : string) : Row :=
  <[NCBI_FIELD := synonyms_ncbi]>
    (<[WIKI_FIELD := row_get row WIKI_FIELD]>
      (<[OPEN_TREE_FIELD := row_get row OPEN_TREE_FIELD]>
        (<["food_sci" := row_get row "food_sci"]>
          (<["food_com" := row_get row "food_com"]>
            (<[index_field := row_get row index_field]> ∅))))).

(** Lines 217-227: the identifier of a key, from the key cache when the
    key is there, by the candidate loop otherwise; the outcome of the loop
    is stored under the key, found or not. *)
Definition resolve_key (net : Net) (queries : list string) (key : Key)
  : M (option string) :=
  st ← get_state;
  if decide (is_Some (taxid_cache st !! key)) then
    subscript (taxid_cache st) key
  else
    emit (Resolve key);;
    taxid ← resolve_loop net queries None;
    set_taxid_cache key taxid;;
    ret taxid.

(** Lines 214 and 229-234: the new field of a row. *)
Definition synonyms_field (net : Net) (taxid : option string) : M string :=
  if truthy_opt taxid then
    let taxid := default "" taxid in
    st ← get_state;
    (if decide (synonym_cache st !! taxid = None) then
       synonyms ← fetch_synonyms_for_taxid net taxid;
       set_synonym_cache taxid (PyStr.join "; " synonyms);;
       emit Sleep
     else ret ());;
    st ← get_state;
    ret (default "" (synonym_cache st !! taxid))
  else ret "".

(** The body of the main loop (lines 209-245). *)
Definition process_row (net : Net) (index_field : string)
    (name_candidates : gmap Key (list string)) (p : Z * Row) : M unit :=
  let '(idx, row) := p in
  let key := main_pass_key idx row in
  let queries := default [] (name_candidates !! key) in
  taxid ← resolve_key net queries key;
  synonyms_ncbi ← synonyms_field net taxid;
  append_row (output_row index_field row synonyms_ncbi).

(** [csv.DictWriter]: a row is written as its cells in the order of
    [fieldnames]; a dictionary with a key outside [fieldnames] is refused
    with [ValueError], an absent key is written as the empty string. *)
Definition dict_to_list (fieldnames : list string) (rowdict : Row) : result (list string) :=
  if decide (dom rowdict ⊆ list_to_set fieldnames)
  then Ok ((λ key, default "" (rowdict !! key)) <$> fieldnames)
  else Raise ValueError.

Fixpoint writerows (fieldnames : list string) (rowdicts : list Row)
  : result (list (list string)) :=
  match rowdicts with
  | [] => Ok []
  | rowdict :: rest =>
      match dict_to_list fieldnames rowdict with
      | Raise e => Raise e
      | Ok cells =>
          match writerows fieldnames rest with
          | Raise e => Raise e
          | Ok lines => Ok (cells :: lines)
          end
      end
  end.

Definition output_fieldnames (index_field : string) : list string :=
  [index_field; "food_com"; "food_sci"; OPEN_TREE_FIELD; WIKI_FIELD; NCBI_FIELD].

(** The rows that the two loops run over (lines 171-174). *)
Definition limited_rows (reader : Reader) (limit : option Z) : list Row :=
  let rows := records reader in
  match limit with
  | Some n => slice_to rows n
  | None => rows
  end.

(** [main]; [input_path] is [None] when the file does not exist.  The
    value is the table written to [output_path], header line first. *)
Definition main_body (net : Net) (input_path : option Reader) (limit : option Z)
  : M (list (list string)) :=
  match input_path with
  | None => raise SystemExit
  | Some reader =>
      match fieldnames reader with
      | None => raise ValueError
      | Some names =>
          index_field ← (match names with
                         | [] => raise IndexError
                         | first :: _ => ret first
                         end);
          let rows := limited_rows reader limit in
          let name_candidates := prescan rows in
          for_each (enumerate 1 rows) (process_row net index_field name_candidates);;
          st ← get_state;
          let fieldnames := output_fieldnames index_field in
          lines ← lift (writerows fieldnames (updated_rows st));
          ret (fieldnames :: lines)
      end
  end.

Definition main (net : Net) (input_path : option Reader) (limit : option Z)
  : list event * result (list (list string)) :=
  let '(st, r) := main_body net input_path limit initial_state in
  (trace st, r).

(** ** Notions used to state the properties *)

(** The search calls, the fetch calls and the entries into the candidate
    loop of a run, in order. *)
Definition searches (tr : list event) : list string :=
  omap (λ e, match e with Search q => Some q | _ => None end) tr.
Definition fetches (tr : list event) : list string :=
  omap (λ e, match e with Fetch t => Some t | _ => None end) tr.
Definition resolutions (tr : list event) : list Key :=
  omap (λ e, match e with Resolve k => Some k | _ => None end) tr.

(** [r] is [l] without its repeats, every element standing where it is
    first seen: [r] has no repeats and the elements of [l], and what stands
    before an element [x] of [r] is what [l] has before its first [x]. *)
Definition dedup_of (l r : list string) : Prop :=
  NoDup r ∧ (∀ x, x ∈ r ↔ x ∈ l) ∧
  ∀ r1 x r2, r = r1 ++ x :: r2 →
    ∃ l1 l2, l = l1 ++ x :: l2 ∧ (x ∉ l1) ∧ (∀ y, y ∈ r1 ↔ y ∈ l1).

(** The texts of the entries of one field kind, in document order; an
    entry without text counts as the empty text. *)
Definition kind_texts (other_names : Element) (kind : string) : list string :=
  (λ e, default "" (text e)) <$> findall other_names kind.

(** The texts of the alternate-names section in the order of section 4.4
    of the specification: exact synonyms, equivalent names,
    database-assigned synonyms, database-assigned common names, generic
    common names, then the display name of every [Name] entry that has
    one. *)
Definition field_texts (other_names : Element) : list string :=
  kind_texts other_names "Synonym"
  ++ kind_texts other_names "EquivalentName"
  ++ kind_texts other_names "GenbankSynonym"
  ++ kind_texts other_names "GenbankCommonName"
  ++ kind_texts other_names "CommonName"
  ++ omap (λ n, findtext n "DispName") (findall other_names "Name").

(** [x] is [t] with the whitespace at its two ends taken off: [t] is
    whitespace, [x], whitespace, and [x] neither starts nor ends with a
    whitespace character. *)
Definition trimmed_of (t x : string) : Prop :=
  ∃ l r,
    PyStr.chars t = l ++ PyStr.chars x ++ r
    ∧ Forall (λ c, PyStr.is_space c = true) l
    ∧ Forall (λ c, PyStr.is_space c = true) r
    ∧ (∀ c, head (PyStr.chars x) = Some c → PyStr.is_space c = false)
    ∧ (∀ c, last (PyStr.chars x) = Some c → PyStr.is_space c = false).

Definition nonempty_trimmed (texts : list string) : list string :=
  filter (λ t, t ≠ "") (PyStr.strip <$> texts).

Definition with_records (reader : Reader) (rows : list Row) : Reader :=
  {| fieldnames := fieldnames reader; records := rows |}.

(** Each query searched, each identifier fetched and each key resolved
    occurs once in the history. *)
Definition calls_once (tr : list event) : Prop :=
  NoDup (searches tr) ∧ NoDup (fetches tr) ∧ NoDup (resolutions tr).

(** The three caches remember what the history did. *)
Definition search_inv (st : State) : Prop :=
  NoDup (searches (trace st))
  ∧ ∀ q, q ∈ searches (trace st) → is_Some (query_cache st !! q).
Definition fetch_inv (st : State) : Prop :=
  NoDup (fetches (trace st))
  ∧ ∀ t, t ∈ fetches (trace st) → is_Some (synonym_cache st !! t).
Definition resolve_inv (st : State) : Prop :=
  NoDup (resolutions (trace st))
  ∧ ∀ k, k ∈ resolutions (trace st) → is_Some (taxid_cache st !! k).

(** [st'] differs from [st] in its searches and its query cache at most. *)
Definition same_but_search (st st' : State) : Prop :=
  fetches (trace st') = fetches (trace st)
  ∧ resolutions (trace st') = resolutions (trace st)
  ∧ taxid_cache st' = taxid_cache st
  ∧ synonym_cache st' = synonym_cache st
  ∧ updated_rows st' = updated_rows st.

Definition run_inv (st : State) : Prop :=
  search_inv st ∧ fetch_inv st ∧ resolve_inv st.

(** Some request of the run may be answered with a body that is not
    well-formed XML. *)
Definition parse_failure (net : Net) : Prop :=
  ∃ history param,
    esearch net history param = Response NotWellFormed
    ∨ efetch net history param = Response NotWellFormed.

(** The only way a turn of the main loop can fail. *)
Definition parse_error (net : Net) (e : exn) : Prop :=
  e = ParseError ∧ parse_failure net.

(** The cells of an output row, as the writer lays them out. *)
Definition output_cells (index_field : string) (row : Row) (synonyms_ncbi : string)
  : list string :=
  [ (if decide (index_field = NCBI_FIELD) then synonyms_ncbi
     else row_get row index_field);
    row_get row "food_com"; row_get row "food_sci";
    row_get row OPEN_TREE_FIELD; row_get row WIKI_FIELD; synonyms_ncbi ].

(** ** The run as a sequence of state changes

    [main] changes its state in five ways only; each is listed with what
    the code has checked when it happens. [nc] is the candidate table of
    the pre-scan. *)

(** The state an operation leaves. *)
Definition exec {A : Type} (m : M A) (st : State) : State := (m st).1.

(** What [search_taxid] and [fetch_synonyms_for_taxid] return in a state,
    the request being made with the history of that state. *)
Definition search_answer (net : Net) (st : State) (query : string)
  : result (option string) :=
  match esearch net (trace st) (query ++ "[All Names]")%string with
  | RequestException => Ok None
  | Response body => search_taxid_read body
  end.

Definition fetch_answer (net : Net) (st : State) (taxid : string)
  : result (list string) :=
  match efetch net (trace st) taxid with
  | RequestException => Ok []
  | Response body => extract_synonyms body
  end.

(** [query] is a candidate stored under [key]. *)
Definition candidate_of (nc : gmap Key (list string)) (key : Key) (query : string)
  : Prop :=
  ∃ queries, nc !! key = Some queries ∧ query ∈ queries.

Inductive step (net : Net) (nc : gmap Key (list string)) : State → State → Prop :=
  | step_resolve st key :
      taxid_cache st !! key = None →
      step net nc st (exec (emit (Resolve key)) st)
  | step_search st key query found :
      candidate_of nc key query →
      query_cache st !! query = None →
      search_answer net st query = Ok found →
      step net nc st
        (exec (emit Sleep)
           (exec (set_query_cache query found) (exec (emit (Search query)) st)))
  | step_store st key taxid :
      taxid_cache st !! key = None →
      (taxid = None
       ∨ ∃ query, candidate_of nc key query ∧ query_cache st !! query = Some taxid) →
      step net nc st (exec (set_taxid_cache key taxid) st)
  | step_fetch st key taxid names :
      taxid ≠ "" →
      taxid_cache st !! key = Some (Some taxid) →
      synonym_cache st !! taxid = None →
      fetch_answer net st taxid = Ok names →
      step net nc st
        (exec (emit Sleep)
           (exec (set_synonym_cache taxid (PyStr.join "; " names))
              (exec (emit (Fetch taxid)) st)))
  | step_row st d :
      step net nc st (exec (append_row d) st).

(** The two ways a run is cut short: a request has been made and its
    answer could not be read. *)
Inductive abort (net : Net) (nc : gmap Key (list string))
  : State → State → exn → Prop :=
  | abort_search st key query e :
      candidate_of nc key query →
      query_cache st !! query = None →
      search_answer net st query = Raise e →
      abort net nc st (exec (emit (Search query)) st) e
  | abort_fetch st key taxid e :
      taxid ≠ "" →
      taxid_cache st !! key = Some (Some taxid) →
      synonym_cache st !! taxid = None →
      fetch_answer net st taxid = Raise e →
      abort net nc st (exec (emit (Fetch taxid)) st) e.

(** An operation started in [st] comes to [out] by state changes of the
    five kinds, with [post] for its value and final state, or is cut
    short. *)
Definition runs {A : Type} (net : Net) (nc : gmap Key (list string)) (st : State)
    (out : State * result A) (post : A → State → Prop) : Prop :=
  match out with
  | (st', Ok a) => rtc (step net nc) st st' ∧ post a st'
  | (st', Raise e) => ∃ st0, rtc (step net nc) st st0 ∧ abort net nc st0 st' e
  end.

(** The new field of a row whose key has the identifier [taxid]. *)
Definition field_value (st : State) (taxid : option string) : string :=
  if truthy_opt taxid then default "" (synonym_cache st !! default "" taxid) else "".

(** The key is in the key cache, its identifier, when there is one, is in
    the synonym cache, and [synonyms_ncbi] is the field they give. *)
Definition row_settled (st : State) (key : Key) (synonyms_ncbi : string) : Prop :=
  ∃ taxid, taxid_cache st !! key = Some taxid
    ∧ synonyms_ncbi = field_value st taxid
    ∧ (truthy_opt taxid = true → is_Some (synonym_cache st !! default "" taxid)).

(** A history in which every request is followed by the pause. *)
Inductive throttled : list event → Prop :=
  | throttled_nil : throttled []
  | throttled_resolve tr key : throttled tr → throttled (tr ++ [Resolve key])
  | throttled_search tr query :
      throttled tr → throttled (tr ++ [Search query; Sleep])
  | throttled_fetch tr taxid :
      throttled tr → throttled (tr ++ [Fetch taxid; Sleep]).

Definition is_call (e : event) : Prop :=
  match e with Search _ | Fetch _ => True | _ => False end.


(** At position [i] of the history [tr] the query [q] was searched, and
    the answer to that request, made with the history before it, was read
    as the identifier [t]. *)
Definition search_found (net : Net) (tr : list event) (i : nat) (q t : string)
  : Prop :=
  tr !! i = Some (Search q)
  ∧ ∃ body, esearch net (take i tr) (q ++ "[All Names]")%string = Response body
      ∧ search_taxid_read body = Ok (Some t).

(** At position [j] of the history [tr] the identifier [t] was fetched,
    and [s] is what that request, made with the history before it, gave:
    nothing when the request failed, else the joined names read from its
    answer. *)
Definition fetch_read (net : Net) (tr : list event) (j : nat) (t s : string)
  : Prop :=
  tr !! j = Some (Fetch t)
  ∧ (efetch net (take j tr) t = RequestException ∧ s = ""
     ∨ ∃ body names, efetch net (take j tr) t = Response body
         ∧ extract_synonyms body = Ok names
         ∧ s = PyStr.join "; " names).

(** Where the contents of the caches come from: a cached identifier was
    read from the answer to a search of this run, the identifier of a key
    is that of one of its candidates, a fetched identifier was found by a
    search made before the fetch, and a cached synonym text is what a fetch
    of this run gave. *)
Definition found_inv (net : Net) (nc : gmap Key (list string)) (st : State) : Prop :=
  (∀ q t, query_cache st !! q = Some (Some t) →
     ∃ i, search_found net (trace st) i q t)
  ∧ (∀ k t, taxid_cache st !! k = Some (Some t) →
       ∃ q, candidate_of nc k q ∧ query_cache st !! q = Some (Some t))
  ∧ (∀ j t, trace st !! j = Some (Fetch t) →
       t ≠ "" ∧ ∃ i q, (i < j)%nat ∧ search_found net (trace st) i q t)
  ∧ (∀ t s, synonym_cache st !! t = Some s →
       ∃ j, fetch_read net (trace st) j t s).

(** Among [rows], counted from [start], [queries] is the non-empty
    candidate list of the first row whose key is [key]. *)
Definition first_stored (start : Z) (rows : list Row) (key : Key)
    (queries : list string) : Prop :=
  ∃ j row,
    rows !! j = Some row
    ∧ prescan_key (start + Z.of_nat j) row = key
    ∧ row_queries row = queries
    ∧ queries ≠ []
    ∧ ∀ j' row', (j' < j)%nat → rows !! j' = Some row' →
        prescan_key (start + Z.of_nat j') row' ≠ key.

(** Every query of the list is in the query cache without an identifier. *)
Definition all_without_id (st : State) (queries : list string) : Prop :=
  Forall (λ q, ∃ v, query_cache st !! q = Some v ∧ truthy_opt v = false) queries.

(** What the candidate loop leaves when it was entered in [st] with
    [queries] and ends in [st'] with [taxid]: it has gone through the
    queries [tried], a prefix of the list, and has searched those of them
    that were not cached; with an identifier, the last query tried is the
    first one that has it; without, all queries were tried. *)
Definition first_success (st st' : State) (queries : list string)
    (taxid : option string) : Prop :=
  ∃ tried rest,
    queries = tried ++ rest
    ∧ query_cache st ⊆ query_cache st'
    ∧ (∀ x, x ∈ searches (trace st')
            ↔ x ∈ searches (trace st) ∨ (x ∈ tried ∧ query_cache st !! x = None))
    ∧ (truthy_opt taxid = true →
         ∃ pre q, tried = pre ++ [q]
           ∧ query_cache st' !! q = Some taxid ∧ all_without_id st' pre)
    ∧ (truthy_opt taxid = false → rest = [] ∧ all_without_id st' tried).

(** ** Sample data *)

(** A service that answers every search with identifier 4081 and every
    fetch with a record of three names, two of them equal. *)
Definition demo_net : Net := {|
  esearch := λ _ _, Response (WellFormed
    (Elem "eSearchResult" None [Elem "IdList" None [Elem "Id" (Some "4081") []]]));
  efetch := λ _ _, Response (WellFormed
    (Elem "TaxaSet" None [Elem "Taxon" None [Elem "OtherNames" None
      [Elem "GenbankCommonName" (Some "tomato") [];
       Elem "Synonym" (Some " Lycopersicon esculentum ") [];
       Elem "Name" None [Elem "ClassCDE" (Some "misspelling") [];
                         Elem "DispName" (Some "tomato") []]]]]));
|}.

(** A service whose search answers are not XML. *)
Definition garbled_net : Net := {|
  esearch := λ _ _, Response NotWellFormed;
  efetch := λ _ _, Response NotWellFormed;
|}.

Definition demo_row (index_field i sci com : string) : Row :=
  <[index_field := i]> (<["food_sci" := sci]> (<["food_com" := com]>
    (<[OPEN_TREE_FIELD := "a"]> (<[WIKI_FIELD := "b"]> ∅)))).

Definition demo_rows (index_field : string) : list Row :=
  [demo_row index_field "1" "Solanum lycopersicum" "tomato";
   demo_row index_field "2" "Solanum_lycopersicum" "";
   demo_row index_field "3" "" ""].

Definition demo_reader (index_field : string) : Reader := {|
  fieldnames := Some [index_field; "food_com"; "food_sci"; OPEN_TREE_FIELD; WIKI_FIELD];
  records := demo_rows index_field;
|}.

Definition no_taxon : Element := Elem "TaxaSet" None [].
Definition taxon_without_names : Element :=
  Elem "TaxaSet" None [Elem "Taxon" None [Elem "ScientificName" (Some "Foo") []]].
Definition demo_other_names : Element :=
  Elem "OtherNames" None
    [Elem "CommonName" (Some "love apple") [];
     Elem "Name" None [Elem "DispName" (Some " tomato ") []];
     Elem "Synonym" (Some "Lycopersicon esculentum") [];
     Elem "GenbankCommonName" (Some "tomato") [];
     Elem "Synonym" (Some "  ") [];
     Elem "Synonym" None []].
Definition demo_taxon : Element := Elem "Taxon" None [demo_other_names].
Definition demo_record : Element := Elem "TaxaSet" None [demo_taxon].

(** * Properties *)

(** ** Strings *)

Section strings.
Import PyStr.

Lemma of_chars_chars s : of_chars (chars s) = s.
Proof. apply string_of_list_ascii_of_string. Qed.

Lemma chars_of_chars l : chars (of_chars l) = l.
Proof. apply list_ascii_of_string_of_list_ascii. Qed.

Lemma truthy_true s : truthy s = true ↔ s ≠ "".
Proof. destruct s; simpl; split; congruence. Qed.

Lemma truthy_false s : truthy s = false ↔ s = "".
Proof. destruct s; simpl; split; congruence. Qed.

Lemma of_chars_nil l : of_chars l = "" ↔ l = [].
Proof. destruct l; simpl; split; congruence. Qed.

Lemma lstrip_chars_idemp l : lstrip_chars (lstrip_chars l) = lstrip_chars l.
Proof.
  induction l as [|c l IH]; simpl; [done|].
  destruct (is_space c) eqn:Hc; [done|]. simpl. by rewrite Hc.
Qed.

Lemma lstrip_chars_snoc l c :
  is_space c = false → lstrip_chars (l ++ [c]) = lstrip_chars l ++ [c].
Proof.
  intros Hc. induction l as [|d l IH]; simpl.
  - by rewrite Hc.
  - by destruct (is_space d).
Qed.

Lemma rstrip_chars_cons c l :
  is_space c = false → rstrip_chars (c :: l) = c :: rstrip_chars l.
Proof.
  intros Hc. unfold rstrip_chars.
  by rewrite reverse_cons, lstrip_chars_snoc, reverse_snoc.
Qed.

Lemma rstrip_chars_idemp l : rstrip_chars (rstrip_chars l) = rstrip_chars l.
Proof.
  unfold rstrip_chars. by rewrite reverse_involutive, lstrip_chars_idemp.
Qed.

Lemma lstrip_chars_head l :
  lstrip_chars l = [] ∨ ∃ c m, lstrip_chars l = c :: m ∧ is_space c = false.
Proof.
  induction l as [|c l IH]; simpl; [by left|].
  destruct (is_space c) eqn:Hc; [done|]. right. eauto.
Qed.

Lemma strip_chars_idemp l : strip_chars (strip_chars l) = strip_chars l.
Proof.
  unfold strip_chars.
  destruct (lstrip_chars_head l) as [-> | (c & m & -> & Hc)]; [done|].
  rewrite rstrip_chars_cons by done. simpl. rewrite Hc.
  rewrite rstrip_chars_cons by done. by rewrite rstrip_chars_idemp.
Qed.

(** Trimming a trimmed string changes nothing. *)
Lemma strip_idemp s : strip (strip s) = strip s.
Proof. unfold strip. by rewrite chars_of_chars, strip_chars_idemp. Qed.

End strings.

(** ** Name normalizer *)

(** C6. For all raw names and every fallback index, [build_key] gives the
    scientific variant exactly when the cleaned scientific name is not
    empty, whatever the common name; otherwise the common variant when the
    cleaned common name is not empty; and the row-index variant exactly
    when both cleaned names are empty. *)
Theorem build_key_variant (scientific common : string) (fallback_index : Z) :
  let sci := format_scientific_name scientific in
  let com := format_common_name common in
  let key := build_key scientific common fallback_index in
  (sci ≠ "" → key = ("sci", sci)) ∧
  (sci = "" → com ≠ "" → key = ("com", com)) ∧
  (sci = "" → com = "" → key = ("row", PyStr.str_of_int fallback_index)) ∧
  (key.1 = "sci" ↔ sci ≠ "") ∧
  (key.1 = "com" ↔ sci = "" ∧ com ≠ "") ∧
  (key.1 = "row" ↔ sci = "" ∧ com = "").
Proof.
  intros sci com key. subst key. unfold build_key. fold sci com.
  destruct (PyStr.truthy sci) eqn:Hs.
  - apply truthy_true in Hs. simpl. intuition congruence.
  - apply truthy_false in Hs. destruct (PyStr.truthy com) eqn:Hc.
    + apply truthy_true in Hc. simpl. intuition congruence.
    + apply truthy_false in Hc. simpl. intuition congruence.
Qed.

Lemma build_key_variant_witness :
  build_key " Zea_mays" "corn" 7 = ("sci", "Zea mays")
  ∧ build_key "_" " sweet_corn" 7 = ("com", "sweet corn")
  ∧ build_key " " "_" 7 = ("row", "7").
Proof.
  split; [|split].
  - destruct (build_key_variant " Zea_mays" "corn" 7) as (H & _).
    apply H. vm_compute. discriminate.
  - destruct (build_key_variant "_" " sweet_corn" 7) as (_ & H & _).
    apply H; vm_compute; [reflexivity | discriminate].
  - destruct (build_key_variant " " "_" 7) as (_ & _ & H & _).
    apply H; vm_compute; reflexivity.
Defined.

(** ** Query candidate generator *)

(** C1, as the code has it. For the scientific name "Foo sp." and no common
    name the candidates are "Foo sp.", "Foo sp" and "Foo", in this order:
    the name ends in a period, so the period-stripped form is generated
    too, between the name and the genus. *)
Theorem candidate_queries_foo_sp :
  candidate_queries "Foo sp." "" = ["Foo sp."; "Foo sp"; "Foo"].
Proof. vm_compute. reflexivity. Qed.

(** C1, as stated, fails: the list is not the two-element list. *)
Lemma candidate_queries_foo_sp_not_two :
  candidate_queries "Foo sp." "" ≠ ["Foo sp."; "Foo"].
Proof. vm_compute. discriminate. Qed.

(** ** Missing headers *)



(** ** Removing repeats in first-seen order *)

Lemma nodup_split_unique (a a' b b' : list string) (x : string) :
  NoDup (a ++ x :: b) → a ++ x :: b = a' ++ x :: b' → a = a'.
Proof.
  revert a'. induction a as [|y a IH]; intros [|y' a'] Hnd Heq; simpl in *.
  - done.
  - injection Heq as <- ->. apply NoDup_cons in Hnd as [Hx _].
    destruct Hx. set_solver.
  - injection Heq as -> <-. apply NoDup_cons in Hnd as [Hx _].
    destruct Hx. set_solver.
  - injection Heq as <- Heq. f_equal. apply NoDup_cons in Hnd as [_ Hnd]. eauto.
Qed.

Lemma ordered_insert_fold (l acc : list string) :
  NoDup acc →
  let r := foldl ordered_insert acc l in
  NoDup r ∧ (∀ x, x ∈ r ↔ x ∈ acc ∨ x ∈ l) ∧ (∃ t, r = acc ++ t) ∧
  ∀ r1 x r2, r = r1 ++ x :: r2 → x ∉ acc →
    ∃ l1 l2, l = l1 ++ x :: l2 ∧ (x ∉ l1) ∧ (∀ y, y ∈ r1 ↔ y ∈ acc ∨ y ∈ l1).
Proof.
  revert acc. induction l as [|x0 l IH]; intros acc Hacc; simpl.
  - split; [done|]. split; [set_solver|]. split; [exists []; by rewrite app_nil_r|].
    intros r1 x r2 -> Hx. destruct Hx. set_solver.
  - unfold ordered_insert at 2 4 6 8. destruct (decide (x0 ∈ acc)) as [Hin|Hin].
    + destruct (IH acc Hacc) as (Hnd & Hel & Hpre & Hord).
      split; [done|]. split; [set_solver|]. split; [done|].
      intros r1 x r2 Hr Hx. destruct (Hord r1 x r2 Hr Hx) as (l1 & l2 & -> & Hl1 & Hr1).
      exists (x0 :: l1), l2. split; [done|]. split; [set_solver|]. set_solver.
    + assert (NoDup (acc ++ [x0])) as Hacc'.
      { apply NoDup_app. split; [done|]. split; [set_solver|]. apply NoDup_singleton. }
      destruct (IH _ Hacc') as (Hnd & Hel & [t Hpre] & Hord).
      split; [done|]. split; [set_solver|].
      split; [exists (x0 :: t); by rewrite Hpre, <- app_assoc|].
      intros r1 x r2 Hr Hx. destruct (decide (x = x0)) as [->|Hne].
      * exists [], l. split; [done|]. split; [set_solver|].
        assert (r1 = acc) as ->; [|set_solver].
        rewrite Hr in Hnd. rewrite Hpre, <- app_assoc in Hr. simpl in Hr.
        symmetry in Hr. eapply nodup_split_unique; [exact Hnd | exact Hr].
      * destruct (Hord r1 x r2 Hr) as (l1 & l2 & -> & Hl1 & Hr1); [set_solver|].
        exists (x0 :: l1), l2. split; [done|]. split; [set_solver|].
        intros y. rewrite Hr1. set_solver.
Qed.

(** [ordered_fromkeys] removes the repeats of a list in first-seen order. *)
Lemma ordered_fromkeys_dedup (l : list string) : dedup_of l (ordered_fromkeys l).
Proof.
  destruct (ordered_insert_fold l [] (NoDup_nil_2)) as (Hnd & Hel & _ & Hord).
  split; [done|]. split; [set_solver|].
  intros r1 x r2 Hr. destruct (Hord r1 x r2 Hr) as (l1 & l2 & ? & ? & ?); [set_solver|].
  exists l1, l2. set_solver.
Qed.

Lemma filter_truthy (l : list string) :
  filter (λ c, PyStr.truthy c = true) l = filter (λ c, c ≠ "") l.
Proof. apply list_filter_iff. intros x. apply truthy_true. Qed.

(** C7. For all raw names, the candidate list has no repeats and no empty
    string; it is the list of the non-empty candidates with the repeats
    removed, every candidate standing where it is first seen; and it is
    empty when both raw names are empty. *)
Theorem candidate_queries_distinct (scientific common : string) :
  let queries := candidate_queries scientific common in
  NoDup queries ∧ ("" ∉ queries)
  ∧ dedup_of (filter (λ c, c ≠ "") (raw_candidates scientific common)) queries
  ∧ candidate_queries "" "" = [].
Proof.
  intros queries. subst queries. unfold candidate_queries. rewrite filter_truthy.
  pose proof (ordered_fromkeys_dedup
    (filter (λ c, c ≠ "") (raw_candidates scientific common))) as Hd.
  split; [apply Hd|]. split; [|split; [done|by vm_compute]].
  destruct Hd as (_ & Hel & _). rewrite Hel, list_elem_of_filter. tauto.
Qed.

(** ** Reading the responses *)

Section extraction.
Import PyStr.

Lemma nonempty_trimmed_app (a b : list string) :
  nonempty_trimmed (a ++ b) = nonempty_trimmed a ++ nonempty_trimmed b.
Proof. unfold nonempty_trimmed. by rewrite fmap_app, filter_app. Qed.

Lemma nonempty_trimmed_cons (t : string) (l : list string) :
  nonempty_trimmed (t :: l)
  = if truthy (strip t) then strip t :: nonempty_trimmed l else nonempty_trimmed l.
Proof.
  unfold nonempty_trimmed. rewrite fmap_cons, filter_cons.
  destruct (truthy (strip t)) eqn:Ht.
  - apply truthy_true in Ht. by rewrite decide_True.
  - apply truthy_false in Ht. by rewrite decide_False by (by intros []).
Qed.

Lemma nonempty_trimmed_idemp (l : list string) :
  nonempty_trimmed (nonempty_trimmed l) = nonempty_trimmed l.
Proof.
  induction l as [|t l IH]; [done|]. rewrite nonempty_trimmed_cons.
  destruct (truthy (strip t)) eqn:Ht; [|done].
  by rewrite nonempty_trimmed_cons, strip_idemp, Ht, IH.
Qed.

(** The inner loop adds the trimmed, non-empty texts of the elements. *)
Lemma collect_elem_fold (elems : list Element) (values : list string) :
  foldl collect_elem values elems
  = values ++ nonempty_trimmed ((λ e, default "" (text e)) <$> elems).
Proof.
  revert values. induction elems as [|e elems IH]; intros values; simpl.
  - by rewrite app_nil_r.
  - rewrite IH, nonempty_trimmed_cons. unfold collect_elem.
    destruct (text e) as [t|]; simpl.
    + destruct (truthy t) eqn:Ht.
      * destruct (truthy (strip t)); [by rewrite <- app_assoc | done].
      * apply truthy_false in Ht as ->. done.
    + done.
Qed.

Lemma collect_tag_fold (other_names : Element) (kinds : list string)
    (values : list string) :
  foldl (collect_tag other_names) values kinds
  = values ++ nonempty_trimmed
      (mjoin ((λ kind, (λ e, default "" (text e)) <$> findall other_names kind)
                <$> kinds)).
Proof.
  revert values. induction kinds as [|k kinds IH]; intros values; simpl.
  - by rewrite app_nil_r.
  - rewrite IH. unfold collect_tag. rewrite collect_elem_fold.
    by rewrite nonempty_trimmed_app, app_assoc.
Qed.

Lemma collect_name_fold (names : list Element) (values : list string) :
  nonempty_trimmed (foldl collect_name values names)
  = nonempty_trimmed values
    ++ nonempty_trimmed (omap (λ n, findtext n "DispName") names).
Proof.
  revert values. induction names as [|n names IH]; intros values; simpl.
  - by rewrite app_nil_r.
  - rewrite IH. unfold collect_name.
    destruct (findtext n "DispName") as [d|]; simpl; [|done].
    rewrite (nonempty_trimmed_cons d). destruct (truthy d) eqn:Hd.
    + rewrite nonempty_trimmed_app, <- app_assoc. f_equal.
      change (nonempty_trimmed [strip d]) with (nonempty_trimmed (strip d :: [])).
      rewrite nonempty_trimmed_cons, strip_idemp.
      by destruct (truthy (strip d)).
    + apply truthy_false in Hd as ->. done.
Qed.

(** What reaches the last loop, once trimmed and without the empty
    strings, is the texts in field-kind order, trimmed and without the
    empty strings. *)
Lemma collected_values_texts (other_names : Element) :
  nonempty_trimmed (collected_values other_names)
  = nonempty_trimmed (field_texts other_names).
Proof.
  unfold collected_values, field_texts, kind_texts.
  rewrite collect_name_fold, collect_tag_fold, app_nil_l, nonempty_trimmed_idemp.
  unfold synonym_tags. simpl. rewrite app_nil_r, <- !nonempty_trimmed_app.
  by rewrite <- !app_assoc.
Qed.

(** The last loop is [OrderedDict.fromkeys] on the trimmed, non-empty
    values. *)
Lemma dedup_step_fold (values ordered : list string) :
  foldl dedup_step ordered values
  = foldl ordered_insert ordered (nonempty_trimmed values).
Proof.
  revert ordered. induction values as [|v values IH]; intros ordered; [done|].
  rewrite nonempty_trimmed_cons. simpl. rewrite IH. unfold dedup_step.
  destruct (truthy (strip v)); simpl; [|done].
  f_equal. unfold ordered_insert. by case_bool_decide; case_decide.
Qed.

End extraction.

Lemma nonempty_trimmed_elem (l : list string) (x : string) :
  x ∈ nonempty_trimmed l → x ≠ "" ∧ PyStr.strip x = x.
Proof.
  unfold nonempty_trimmed. rewrite list_elem_of_filter, list_elem_of_fmap.
  intros [Hx (t & -> & _)]. split; [done|]. apply strip_idemp.
Qed.

(** *** What trimming is *)

Lemma strip_chars_head (l : list ascii) (c : ascii) :
  head (PyStr.strip_chars l) = Some c → PyStr.is_space c = false.
Proof.
  unfold PyStr.strip_chars.
  destruct (lstrip_chars_head l) as [-> | (d & m & -> & Hd)]; [done|].
  rewrite rstrip_chars_cons by done. simpl. congruence.
Qed.

Lemma strip_chars_last (l : list ascii) (c : ascii) :
  last (PyStr.strip_chars l) = Some c → PyStr.is_space c = false.
Proof.
  unfold PyStr.strip_chars, PyStr.rstrip_chars. rewrite last_reverse.
  destruct (lstrip_chars_head (reverse (PyStr.lstrip_chars l)))
    as [-> | (d & m & -> & Hd)]; [done|]. simpl. congruence.
Qed.

Lemma lstrip_chars_split (m : list ascii) :
  ∃ l, m = l ++ PyStr.lstrip_chars m ∧ Forall (λ c, PyStr.is_space c = true) l.
Proof.
  induction m as [|c m (l & Hm & Hl)]; simpl.
  - exists []. by split.
  - destruct (PyStr.is_space c) eqn:Hc.
    + exists (c :: l). split; [by rewrite <- app_comm_cons, <- Hm|]. by constructor.
    + exists []. by split.
Qed.

Lemma rstrip_chars_split (m : list ascii) :
  ∃ r, m = PyStr.rstrip_chars m ++ r ∧ Forall (λ c, PyStr.is_space c = true) r.
Proof.
  destruct (lstrip_chars_split (reverse m)) as (l & Hm & Hl).
  exists (reverse l). split; [|by apply Forall_reverse].
  unfold PyStr.rstrip_chars. rewrite <- reverse_app, <- Hm. by rewrite reverse_involutive.
Qed.

Lemma lstrip_chars_app_spaces (l m : list ascii) :
  Forall (λ c, PyStr.is_space c = true) l →
  PyStr.lstrip_chars (l ++ m) = PyStr.lstrip_chars m.
Proof. induction 1 as [|c l Hc _ IH]; simpl; [done|]. by rewrite Hc. Qed.

Lemma lstrip_chars_spaces (l : list ascii) :
  Forall (λ c, PyStr.is_space c = true) l → PyStr.lstrip_chars l = [].
Proof. intros Hl. rewrite <- (app_nil_r l). by rewrite lstrip_chars_app_spaces. Qed.

(** [strip] trims. *)
Lemma strip_trimmed (t : string) : trimmed_of t (PyStr.strip t).
Proof.
  destruct (lstrip_chars_split (PyStr.chars t)) as (l & Hl & Hspl).
  destruct (rstrip_chars_split (PyStr.lstrip_chars (PyStr.chars t))) as (r & Hr & Hspr).
  exists l, r. unfold PyStr.strip. rewrite chars_of_chars.
  split; [|split; [done|split; [done|split]]].
  - unfold PyStr.strip_chars. by rewrite <- Hr.
  - apply strip_chars_head.
  - apply strip_chars_last.
Qed.

(** Trimming has one outcome, the one [strip] gives. *)
Lemma trimmed_of_strip (t x : string) : trimmed_of t x → x = PyStr.strip t.
Proof.
  intros (l & r & Ht & Hl & Hr & Hhead & Hlast).
  rewrite <- (of_chars_chars x). unfold PyStr.strip. f_equal.
  rewrite Ht. unfold PyStr.strip_chars. rewrite lstrip_chars_app_spaces by done.
  destruct (PyStr.chars x) as [|c cx] eqn:Hx.
  - simpl. by rewrite lstrip_chars_spaces.
  - assert (PyStr.is_space c = false) as Hc by (by apply Hhead).
    simpl. rewrite Hc. unfold PyStr.rstrip_chars.
    change (c :: cx ++ r) with ((c :: cx) ++ r).
    rewrite reverse_app, lstrip_chars_app_spaces by (by apply Forall_reverse).
    destruct (reverse (c :: cx)) as [|d m] eqn:Hrev.
    { apply (f_equal reverse) in Hrev. rewrite reverse_involutive in Hrev. done. }
    assert (PyStr.is_space d = false) as Hd.
    { apply Hlast. rewrite <- head_reverse, Hrev. done. }
    simpl. rewrite Hd. rewrite <- Hrev. by rewrite reverse_involutive.
Qed.

(** C8. For every record with a taxon entry that has an alternate-names
    section, synonym extraction returns the texts of the exact synonyms,
    the equivalent names, the database-assigned synonyms, the
    database-assigned common names and the generic common names, in this
    order, followed by the display names of the [Name] entries; each text
    trimmed of the whitespace at its ends, the empty ones dropped, and the
    repeats (equal strings, letter case included) removed with every name
    standing where it is first seen. *)
Theorem extract_synonyms_ordered_distinct (root taxon other_names : Element) :
  find root "Taxon" = Some taxon →
  find taxon "OtherNames" = Some other_names →
  ∃ names cleaned,
    extract_synonyms (WellFormed root) = Ok names
    ∧ Forall2 trimmed_of (field_texts other_names) cleaned
    ∧ dedup_of (filter (λ x, x ≠ "") cleaned) names.
Proof.
  intros Htaxon Hnames.
  exists (foldl dedup_step [] (collected_values other_names)),
    (PyStr.strip <$> field_texts other_names).
  split; [|split].
  - unfold extract_synonyms. simpl. by rewrite Htaxon, Hnames.
  - apply Forall2_fmap_r, Forall_Forall2_diag, Forall_forall.
    intros t _. apply strip_trimmed.
  - rewrite dedup_step_fold, collected_values_texts.
    apply (ordered_fromkeys_dedup (nonempty_trimmed (field_texts other_names))).
Qed.

Lemma extract_synonyms_ordered_distinct_witness :
  ∃ names cleaned,
    extract_synonyms (WellFormed demo_record) = Ok names
    ∧ names = ["Lycopersicon esculentum"; "tomato"; "love apple"]
    ∧ Forall2 trimmed_of (field_texts demo_other_names) cleaned
    ∧ dedup_of (filter (λ x, x ≠ "") cleaned) names.
Proof.
  destruct (extract_synonyms_ordered_distinct demo_record demo_taxon demo_other_names
              eq_refl eq_refl) as (names & cleaned & Heq & Hall & Hd).
  exists names, cleaned. split; [exact Heq|]. split; [|split; assumption].
  vm_compute in Heq. injection Heq as <-. reflexivity.
Defined.

(** C3, as the code has it. For every response that parses, neither reader
    raises; the search gives no identifier when the id list is absent or
    holds no identifier, and the extraction gives the empty list when the
    taxon entry is absent or has no alternate-names section. *)
Theorem missing_elements_give_empty (root : Element) :
  (∃ found, search_taxid_read (WellFormed root) = Ok found)
  ∧ (∃ names, extract_synonyms (WellFormed root) = Ok names)
  ∧ (find root "IdList" = None → search_taxid_read (WellFormed root) = Ok None)
  ∧ (∀ id_list, find root "IdList" = Some id_list → findall id_list "Id" = [] →
       search_taxid_read (WellFormed root) = Ok None)
  ∧ (find root "Taxon" = None → extract_synonyms (WellFormed root) = Ok [])
  ∧ (∀ taxon, find root "Taxon" = Some taxon → find taxon "OtherNames" = None →
       extract_synonyms (WellFormed root) = Ok []).
Proof.
  unfold search_taxid_read, extract_synonyms. simpl. repeat split.
  - destruct (find root "IdList"); eauto.
  - destruct (find root "Taxon") as [taxon|]; [|eauto].
    destruct (find taxon "OtherNames"); eauto.
  - by intros ->.
  - by intros id_list -> ->.
  - by intros ->.
  - by intros taxon -> ->.
Qed.

Lemma missing_elements_give_empty_witness :
  search_taxid_read (WellFormed no_taxon) = Ok None
  ∧ extract_synonyms (WellFormed no_taxon) = Ok []
  ∧ extract_synonyms (WellFormed taxon_without_names) = Ok [].
Proof.
  split; [|split].
  - destruct (missing_elements_give_empty no_taxon) as (_ & _ & H & _).
    apply H. reflexivity.
  - destruct (missing_elements_give_empty no_taxon) as (_ & _ & _ & _ & H & _).
    apply H. reflexivity.
  - destruct (missing_elements_give_empty taxon_without_names)
      as (_ & _ & _ & _ & _ & H).
    eapply H; reflexivity.
Defined.

(** C3, as stated, fails: a body that is not well-formed XML makes the
    parser raise in both readers, nothing catches it, and the run ends
    with the error after the first search. *)
Lemma not_well_formed_raises :
  search_taxid_read NotWellFormed = Raise ParseError
  ∧ extract_synonyms NotWellFormed = Raise ParseError
  ∧ main garbled_net (Some (demo_reader "id")) None
    = ([Resolve ("sci", "Solanum lycopersicum"); Search "Solanum lycopersicum"],
       Raise ParseError).
Proof. repeat split; vm_compute; reflexivity. Qed.

(** ** The two passes over the rows *)

Lemma enumerate_lookup {A} (l : list A) (start : Z) (i : nat) :
  enumerate start l !! i = (λ x, (start + Z.of_nat i, x)) <$> l !! i.
Proof.
  revert start i. induction l as [|x l IH]; intros start [|i]; simpl; try done.
  - by rewrite Z.add_0_r.
  - rewrite IH. destruct (l !! i); simpl; [|done]. do 2 f_equal. lia.
Qed.

Lemma enumerate_length {A} (l : list A) (start : Z) :
  List.length (enumerate start l) = List.length l.
Proof. revert start. induction l; intros; simpl; auto. Qed.

Lemma setdefault_keeps (d : gmap Key (list string)) (k k' : Key) (v v' : list string) :
  d !! k' = Some v' → setdefault d k v !! k' = Some v'.
Proof.
  intros Hk'. unfold setdefault. destruct (d !! k) eqn:Hk; [done|].
  rewrite lookup_insert_ne; [done|]. intros ->. congruence.
Qed.

Lemma prescan_step_keeps (d : gmap Key (list string)) (p : Z * Row)
    (k : Key) (v : list string) :
  d !! k = Some v → prescan_step d p !! k = Some v.
Proof.
  intros Hk. destruct p as [idx row]. unfold prescan_step.
  destruct (row_queries row); [done|]. by apply setdefault_keeps.
Qed.

(** What the pre-scan has stored is never replaced. *)
Lemma prescan_fold_keeps (ps : list (Z * Row)) (d : gmap Key (list string))
    (k : Key) (v : list string) :
  d !! k = Some v → foldl prescan_step d ps !! k = Some v.
Proof.
  revert d. induction ps as [|p ps IH]; intros d Hk; simpl; [done|].
  by apply IH, prescan_step_keeps.
Qed.

(** Every key stored by the pre-scan holds the non-empty candidate list of
    a row with that key. *)
Lemma prescan_fold_origin (ps : list (Z * Row)) (d : gmap Key (list string))
    (k : Key) (v : list string) :
  foldl prescan_step d ps !! k = Some v →
  d !! k = Some v
  ∨ ∃ idx row, (idx, row) ∈ ps ∧ prescan_key idx row = k
      ∧ row_queries row = v ∧ v ≠ [].
Proof.
  revert d. induction ps as [|[idx row] ps IH]; intros d Hk; simpl in *; [by left|].
  destruct (IH _ Hk) as [Hd | (idx' & row' & Hin & ?)].
  - unfold prescan_step in Hd. destruct (row_queries row) as [|q qs] eqn:Hq; [by left|].
    unfold setdefault in Hd. destruct (d !! prescan_key idx row) eqn:Hold; [by left|].
    destruct (decide (prescan_key idx row = k)) as [<-|Hne].
    + rewrite lookup_insert_eq in Hd. injection Hd as <-.
      right. exists idx, row. split; [set_solver|]. by rewrite Hq.
    + rewrite lookup_insert_ne in Hd by done. by left.
  - right. exists idx', row'. split; [set_solver|done].
Qed.

Lemma prescan_fold_stores (ps : list (Z * Row)) (d : gmap Key (list string))
    (idx : Z) (row : Row) :
  (idx, row) ∈ ps → row_queries row ≠ [] →
  is_Some (foldl prescan_step d ps !! prescan_key idx row).
Proof.
  revert d. induction ps as [|p ps IH]; intros d Hin Hq; [set_solver|].
  apply elem_of_cons in Hin as [<- | Hin]; simpl; [|by apply IH].
  assert (is_Some (prescan_step d (idx, row) !! prescan_key idx row)) as [v Hv].
  { unfold prescan_step. destruct (row_queries row) as [|q qs]; [done|].
    unfold setdefault. destruct (d !! prescan_key idx row) eqn:Hold.
    - rewrite Hold. eauto.
    - rewrite lookup_insert_eq. eauto. }
  exists v. by apply prescan_fold_keeps.
Qed.

(** C10. For every row of the processed table, the key computed by the
    pre-scan, which counts the rows from 0, is the key computed by the main
    pass, which counts them from 1 and subtracts 1. So when the row has
    candidates, the main pass finds under its key a candidate list that the
    pre-scan stored under that same key: the non-empty list of a row whose
    pre-scan key it is. *)
Theorem prescan_key_main_pass_key (rows : list Row) (i : nat) (row : Row) :
  rows !! i = Some row →
  ∃ idx0 idx1,
    enumerate 0 rows !! i = Some (idx0, row)
    ∧ enumerate 1 rows !! i = Some (idx1, row)
    ∧ prescan_key idx0 row = main_pass_key idx1 row
    ∧ (row_queries row ≠ [] →
       ∃ queries, prescan rows !! main_pass_key idx1 row = Some queries
         ∧ queries ≠ []
         ∧ ∃ j idxj rowj, enumerate 0 rows !! j = Some (idxj, rowj)
             ∧ prescan_key idxj rowj = main_pass_key idx1 row
             ∧ row_queries rowj = queries).
Proof.
  intros Hrow. exists (0 + Z.of_nat i), (1 + Z.of_nat i).
  rewrite !enumerate_lookup, Hrow. simpl.
  assert (prescan_key (0 + Z.of_nat i) row = main_pass_key (1 + Z.of_nat i) row) as Hkey.
  { unfold prescan_key, main_pass_key. do 2 f_equal. lia. }
  repeat split; [done|]. intros Hq. rewrite <- Hkey.
  assert ((0 + Z.of_nat i, row) ∈ enumerate 0 rows) as Hin.
  { apply list_elem_of_lookup. exists i. by rewrite enumerate_lookup, Hrow. }
  destruct (prescan_fold_stores _ ∅ _ _ Hin Hq) as [queries Hqs].
  exists queries. split; [done|].
  destruct (prescan_fold_origin _ _ _ _ Hqs) as [Hd | (idx & row' & Hin' & Hk & Hv & Hne)].
  { by rewrite lookup_empty in Hd. }
  split; [done|]. apply list_elem_of_lookup in Hin' as [j Hj]. eauto 10.
Qed.

Lemma prescan_key_main_pass_key_witness :
  ∃ idx0 idx1,
    enumerate 0 (demo_rows "id") !! 1%nat
      = Some (idx0, demo_row "id" "2" "Solanum_lycopersicum" "")
    ∧ enumerate 1 (demo_rows "id") !! 1%nat
      = Some (idx1, demo_row "id" "2" "Solanum_lycopersicum" "")
    ∧ prescan_key idx0 (demo_row "id" "2" "Solanum_lycopersicum" "")
      = main_pass_key idx1 (demo_row "id" "2" "Solanum_lycopersicum" "")
    ∧ ∃ queries,
        prescan (demo_rows "id")
          !! main_pass_key idx1 (demo_row "id" "2" "Solanum_lycopersicum" "")
        = Some queries.
Proof.
  destruct (prescan_key_main_pass_key (demo_rows "id") 1
              (demo_row "id" "2" "Solanum_lycopersicum" "") eq_refl)
    as (idx0 & idx1 & H0 & H1 & Hk & Hq).
  exists idx0, idx1.
  split; [exact H0|]. split; [exact H1|]. split; [exact Hk|].
  destruct Hq as (queries & Hqs & _).
  { vm_compute. discriminate. }
  exists queries. exact Hqs.
Defined.

(** ** The caches *)

Lemma searches_snoc tr e :
  searches (tr ++ [e])
  = searches tr ++ match e with Search q => [q] | _ => [] end.
Proof. unfold searches. rewrite omap_app. by destruct e. Qed.

Lemma fetches_snoc tr e :
  fetches (tr ++ [e])
  = fetches tr ++ match e with Fetch t => [t] | _ => [] end.
Proof. unfold fetches. rewrite omap_app. by destruct e. Qed.

Lemma resolutions_snoc tr e :
  resolutions (tr ++ [e])
  = resolutions tr ++ match e with Resolve k => [k] | _ => [] end.
Proof. unfold resolutions. rewrite omap_app. by destruct e. Qed.

Lemma NoDup_snoc_fresh `{EqDecision A} (l : list A) (x : A) :
  NoDup l → x ∉ l → NoDup (l ++ [x]).
Proof.
  intros Hl Hx. apply NoDup_app. split; [done|]. split; [|apply NoDup_singleton].
  intros y Hy ->%list_elem_of_singleton. done.
Qed.

Lemma same_but_search_trans (st1 st2 st3 : State) :
  same_but_search st1 st2 → same_but_search st2 st3 → same_but_search st1 st3.
Proof. unfold same_but_search. intuition congruence. Qed.

Lemma search_taxid_read_raise (body : xml) (e : exn) :
  search_taxid_read body = Raise e → e = ParseError ∧ body = NotWellFormed.
Proof.
  destruct body as [|root]; simpl; [by intros [= <-]|].
  by destruct (find root "IdList").
Qed.

Lemma extract_synonyms_raise (body : xml) (e : exn) :
  extract_synonyms body = Raise e → e = ParseError ∧ body = NotWellFormed.
Proof.
  destruct body as [|root]; simpl; [by intros [= <-]|].
  destruct (find root "Taxon") as [taxon|]; [|done].
  by destruct (find taxon "OtherNames").
Qed.

(** The state after a search for a query that was not cached, its outcome
    stored and the pause taken. *)
Lemma searched_state_inv (st : State) (query : string) (found : option string) :
  search_inv st → query_cache st !! query = None →
  let st2 := {| trace := (trace st ++ [Search query]) ++ [Sleep];
                query_cache := <[query := found]> (query_cache st);
                taxid_cache := taxid_cache st;
                synonym_cache := synonym_cache st;
                updated_rows := updated_rows st |} in
  search_inv st2 ∧ same_but_search st st2.
Proof.
  intros [Hnd Hcov] Hnew st2. subst st2.
  assert (query ∉ searches (trace st)) as Hfresh.
  { intros Hq. apply Hcov in Hq as [v Hv]. congruence. }
  unfold search_inv, same_but_search. simpl.
  rewrite !searches_snoc, !fetches_snoc, !resolutions_snoc, !app_nil_r. simpl.
  split; [|done]. split; [by apply NoDup_snoc_fresh|].
  intros q [Hq | ->%list_elem_of_singleton]%elem_of_app.
  - destruct (decide (query = q)) as [->|Hne].
    + rewrite lookup_insert_eq. eauto.
    + rewrite lookup_insert_ne by done. auto.
  - rewrite lookup_insert_eq. eauto.
Qed.

(** The candidate loop searches no query twice, touches nothing but the
    history of searches and the query cache, and can only fail on a
    response that does not parse. *)
Lemma resolve_loop_spec (net : Net) (queries : list string) (taxid : option string)
    (st : State) :
  search_inv st →
  ∀ st' r, resolve_loop net queries taxid st = (st', r) →
    same_but_search st st' ∧ NoDup (searches (trace st'))
    ∧ match r with Ok _ => search_inv st' | Raise e => parse_error net e end.
Proof.
  revert taxid st. induction queries as [|query rest IH]; intros taxid st Hinv st' r Hrun.
  - injection Hrun as <- <-. unfold same_but_search. split; [done|]. split; [apply Hinv|done].
  - simpl in Hrun. unfold mbind, M_bind, bind, get_state in Hrun.
    destruct (decide (query_cache st !! query = None)) as [Hnew|Hold].
    + assert (query ∉ searches (trace st)) as Hfresh.
      { intros Hq. apply Hinv in Hq as [v Hv]. congruence. }
      assert (∀ found, (if truthy_opt found then λ st : State, (st, Ok found)
                        else resolve_loop net rest found)
                {| trace := (trace st ++ [Search query]) ++ [Sleep];
                   query_cache := <[query := found]> (query_cache st);
                   taxid_cache := taxid_cache st;
                   synonym_cache := synonym_cache st;
                   updated_rows := updated_rows st |} = (st', r) →
              same_but_search st st' ∧ NoDup (searches (trace st'))
              ∧ match r with Ok _ => search_inv st' | Raise e => parse_error net e end)
        as Hcont.
      { intros found Hrest.
        destruct (searched_state_inv st query found Hinv Hnew) as [Hinv2 Hsame2].
        destruct (truthy_opt found).
        - injection Hrest as <- <-. split; [done|]. split; [apply Hinv2|done].
        - destruct (IH _ _ Hinv2 _ _ Hrest) as (Hsame3 & Hnd3 & Hr).
          split; [by eapply same_but_search_trans|done]. }
      unfold search_taxid, mbind, M_bind, bind, get_state, emit, lift,
        set_query_cache, subscript in Hrun. unfold ret, raise in Hrun. simpl in Hrun.
      destruct (esearch net (trace st) (query ++ "[All Names]")%string)
        as [|body] eqn:Hnet.
      * simpl in Hrun. rewrite lookup_insert_eq in Hrun. by apply (Hcont None).
      * destruct (search_taxid_read body) as [found|e] eqn:Hread.
        -- simpl in Hrun. rewrite lookup_insert_eq in Hrun. by apply (Hcont found).
        -- apply search_taxid_read_raise in Hread as [-> ->].
           injection Hrun as <- <-. unfold same_but_search. simpl.
           rewrite searches_snoc, fetches_snoc, resolutions_snoc, !app_nil_r.
           split; [done|]. split; [apply NoDup_snoc_fresh; [apply Hinv|done]|].
           split; [done|]. unfold parse_failure. eauto.
    + unfold subscript, ret in Hrun. simpl in Hrun.
      destruct (query_cache st !! query) as [found|] eqn:Hcached; [|done].
      destruct (truthy_opt found).
      * injection Hrun as <- <-. unfold same_but_search.
        split; [done|]. split; [apply Hinv|done].
      * by apply IH in Hrun.
Qed.

Lemma run_inv_calls_once (st : State) : run_inv st → calls_once (trace st).
Proof. intros ((? & _) & (? & _) & (? & _)). by repeat split. Qed.

(** Resolving a key enters the candidate loop only for a key that is not
    in the key cache, and leaves the key there. *)
Lemma resolve_key_spec (net : Net) (queries : list string) (key : Key) (st : State) :
  run_inv st →
  ∀ st' r, resolve_key net queries key st = (st', r) →
    calls_once (trace st') ∧ updated_rows st' = updated_rows st
    ∧ match r with Ok _ => run_inv st' | Raise e => parse_error net e end.
Proof.
  intros (Hs & Hf & Hr) st' r Hrun.
  unfold resolve_key, mbind, M_bind, bind, get_state in Hrun.
  destruct (decide (is_Some (taxid_cache st !! key))) as [[found Hold]|Hnew].
  - unfold subscript in Hrun. rewrite Hold in Hrun. injection Hrun as <- <-.
    split; [by apply run_inv_calls_once|done].
  - unfold emit in Hrun. simpl in Hrun.
    set (st1 := {| trace := trace st ++ [Resolve key] |}) in Hrun.
    assert (search_inv st1) as Hs1.
    { unfold search_inv, st1. simpl. rewrite searches_snoc, app_nil_r. exact Hs. }
    assert (fetches (trace st1) = fetches (trace st)) as Hf1.
    { unfold st1. simpl. by rewrite fetches_snoc, app_nil_r. }
    assert (resolutions (trace st1) = resolutions (trace st) ++ [key]) as Hr1.
    { unfold st1. simpl. by rewrite resolutions_snoc. }
    assert (key ∉ resolutions (trace st)) as Hfresh.
    { intros Hk. by apply Hr in Hk. }
    destruct (resolve_loop net queries None st1) as [st2 [taxid|e]] eqn:Hloop;
      destruct (resolve_loop_spec _ _ _ _ Hs1 _ _ Hloop)
        as ((Hf2 & Hr2 & Htc & Hsc & Hrows) & Hnd2 & Hres).
    all: assert (NoDup (fetches (trace st2))) as Hndf
      by (rewrite Hf2, Hf1; apply Hf).
    all: assert (NoDup (resolutions (trace st2))) as Hndr
      by (rewrite Hr2, Hr1; apply NoDup_snoc_fresh; [apply Hr|done]).
    + unfold set_taxid_cache, ret in Hrun. simpl in Hrun. injection Hrun as <- <-.
      split; [done|]. split; [simpl; by rewrite Hrows|].
      split; [exact Hres|]. split.
      * split; [done|]. simpl. rewrite Hf2, Hf1, Hsc. apply Hf.
      * split; [done|]. simpl. rewrite Hr2, Hr1, Htc. simpl.
        intros k [Hk | ->%list_elem_of_singleton]%elem_of_app.
        -- destruct (decide (key = k)) as [->|Hne].
           ++ rewrite lookup_insert_eq. eauto.
           ++ rewrite lookup_insert_ne by done. by apply Hr.
        -- rewrite lookup_insert_eq. eauto.
    + injection Hrun as <- <-. split; [done|]. by split; [rewrite Hrows|].
Qed.

(** Computing the new field fetches an identifier only when it is not in
    the synonym cache, and leaves it there. *)
Lemma synonyms_field_spec (net : Net) (taxid : option string) (st : State) :
  run_inv st →
  ∀ st' r, synonyms_field net taxid st = (st', r) →
    calls_once (trace st') ∧ updated_rows st' = updated_rows st
    ∧ match r with Ok _ => run_inv st' | Raise e => parse_error net e end.
Proof.
  intros (Hs & Hf & Hr) st' r Hrun. unfold synonyms_field in Hrun.
  destruct (truthy_opt taxid).
  2: { injection Hrun as <- <-. split; [by apply run_inv_calls_once|done]. }
  set (t := default "" taxid) in Hrun.
  unfold mbind, M_bind, bind, get_state in Hrun.
  destruct (decide (synonym_cache st !! t = None)) as [Hnew|Hold].
  2: { injection Hrun as <- <-. split; [by apply run_inv_calls_once|done]. }
  assert (t ∉ fetches (trace st)) as Hfresh.
  { intros Ht. apply Hf in Ht as [v Hv]. congruence. }
  assert (NoDup (fetches (trace st ++ [Fetch t]))) as Hnd.
  { rewrite fetches_snoc. apply NoDup_snoc_fresh; [apply Hf|done]. }
  assert (∀ names,
    run_inv {| trace := (trace st ++ [Fetch t]) ++ [Sleep];
               query_cache := query_cache st; taxid_cache := taxid_cache st;
               synonym_cache := <[t := PyStr.join "; " names]> (synonym_cache st);
               updated_rows := updated_rows st |}) as Hinv.
  { intros names. split; [|split].
    - unfold search_inv. simpl. rewrite !searches_snoc, !app_nil_r. exact Hs.
    - unfold fetch_inv. simpl. rewrite fetches_snoc, app_nil_r.
      split; [done|]. rewrite fetches_snoc.
      intros k [Hk | ->%list_elem_of_singleton]%elem_of_app.
      + destruct (decide (t = k)) as [->|Hne].
        * rewrite lookup_insert_eq. eauto.
        * rewrite lookup_insert_ne by done. by apply Hf.
      + rewrite lookup_insert_eq. eauto.
    - unfold resolve_inv. simpl. rewrite !resolutions_snoc, !app_nil_r. exact Hr. }
  unfold fetch_synonyms_for_taxid, mbind, M_bind, bind, get_state, emit, lift,
    set_synonym_cache in Hrun. unfold ret in Hrun. simpl in Hrun.
  destruct (efetch net (trace st) t) as [|body] eqn:Hnet.
  - simpl in Hrun. injection Hrun as <- <-.
    split; [apply run_inv_calls_once, (Hinv [])|]. split; [done|apply (Hinv [])].
  - destruct (extract_synonyms body) as [names|e] eqn:Hread.
    + simpl in Hrun. injection Hrun as <- <-.
      split; [apply run_inv_calls_once, (Hinv names)|]. split; [done|apply (Hinv names)].
    + apply extract_synonyms_raise in Hread as [-> ->]. injection Hrun as <- <-. simpl.
      split; [|split; [done|]].
      * split; [|split; [done|]].
        -- rewrite searches_snoc, app_nil_r. apply Hs.
        -- rewrite resolutions_snoc, app_nil_r. apply Hr.
      * split; [done|]. unfold parse_failure. eauto.
Qed.

(** One turn of the main loop keeps the caches in step with the history
    and adds one output row, made of the input row and the new field. *)
Lemma process_row_spec (net : Net) (index_field : string)
    (name_candidates : gmap Key (list string)) (idx : Z) (row : Row) (st : State) :
  run_inv st →
  ∀ st' r, process_row net index_field name_candidates (idx, row) st = (st', r) →
    calls_once (trace st')
    ∧ match r with
      | Ok _ => run_inv st'
                ∧ ∃ synonyms_ncbi, updated_rows st'
                    = updated_rows st ++ [output_row index_field row synonyms_ncbi]
      | Raise e => parse_error net e
      end.
Proof.
  intros Hinv st' r Hrun. unfold process_row, mbind, M_bind, bind in Hrun.
  destruct (resolve_key net _ _ st) as [st1 [taxid|e]] eqn:Hkey;
    destruct (resolve_key_spec _ _ _ _ Hinv _ _ Hkey) as (Hc1 & Hrows1 & Hres1).
  2: { injection Hrun as <- <-. done. }
  destruct (synonyms_field net taxid st1) as [st2 [synonyms_ncbi|e]] eqn:Hfield;
    destruct (synonyms_field_spec _ _ _ Hres1 _ _ Hfield) as (Hc2 & Hrows2 & Hres2).
  2: { injection Hrun as <- <-. done. }
  unfold append_row in Hrun. injection Hrun as <- <-. simpl.
  split; [done|]. split; [exact Hres2|].
  exists synonyms_ncbi. by rewrite Hrows2, Hrows1.
Qed.

(** The main loop adds one output row per input row, in order. *)
Lemma main_loop_spec (net : Net) (index_field : string)
    (name_candidates : gmap Key (list string)) (ps : list (Z * Row)) (st : State) :
  run_inv st →
  ∀ st' r, for_each ps (process_row net index_field name_candidates) st = (st', r) →
    calls_once (trace st')
    ∧ match r with
      | Ok _ => run_inv st'
                ∧ ∃ added, updated_rows st' = updated_rows st ++ added
                    ∧ Forall2 (λ p d, ∃ synonyms_ncbi,
                                 d = output_row index_field p.2 synonyms_ncbi)
                        ps added
      | Raise e => parse_error net e
      end.
Proof.
  revert st. induction ps as [|[idx row] ps IH]; intros st Hinv st' r Hrun;
    cbn [for_each] in Hrun.
  - injection Hrun as <- <-. split; [by apply run_inv_calls_once|].
    split; [done|]. exists []. by rewrite app_nil_r.
  - unfold mbind, M_bind, bind in Hrun.
    destruct (process_row net index_field name_candidates (idx, row) st)
      as [st1 [[]|e]] eqn:Hrow;
      destruct (process_row_spec _ _ _ _ _ _ Hinv _ _ Hrow) as (Hc1 & Hres1);
      simpl in Hrun.
    2: { injection Hrun as <- <-. done. }
    destruct Hres1 as (Hinv1 & ncbi & Hrows1).
    destruct (IH _ Hinv1 _ _ Hrun) as (Hc2 & Hres2). split; [done|].
    destruct r as [[]|e]; [|done]. destruct Hres2 as (Hinv2 & added & Hrows2 & Hall).
    split; [done|]. exists (output_row index_field row ncbi :: added).
    split; [by rewrite Hrows2, Hrows1, <- app_assoc|].
    constructor; [eauto|done].
Qed.

Lemma initial_state_inv : run_inv initial_state.
Proof.
  repeat split; simpl; try apply NoDup_nil_2; intros ? Hin; by apply elem_of_nil in Hin.
Qed.

(** ** The output table *)

Lemma output_row_dom (index_field : string) (row : Row) (synonyms_ncbi : string) :
  dom (output_row index_field row synonyms_ncbi)
  ⊆ list_to_set (output_fieldnames index_field).
Proof.
  unfold output_row, output_fieldnames. rewrite !dom_insert_L, dom_empty_L.
  simpl. set_solver.
Qed.

Lemma output_row_cells (index_field : string) (row : Row) (synonyms_ncbi : string) :
  dict_to_list (output_fieldnames index_field)
    (output_row index_field row synonyms_ncbi)
  = Ok (output_cells index_field row synonyms_ncbi).
Proof.
  unfold dict_to_list. rewrite decide_True by apply output_row_dom.
  f_equal. unfold output_fieldnames, output_cells, output_row. simpl.
  unfold NCBI_FIELD, WIKI_FIELD, OPEN_TREE_FIELD.
  f_equal; [|by simplify_map_eq].
  repeat (rewrite lookup_insert; case_decide; simplify_eq; try done).
  by rewrite decide_False.
Qed.

Lemma writerows_output (index_field : string) (rows : list Row) (added : list Row) :
  Forall2 (λ row d, ∃ synonyms_ncbi, d = output_row index_field row synonyms_ncbi)
    rows added →
  ∃ lines, writerows (output_fieldnames index_field) added = Ok lines
    ∧ Forall2 (λ row line, ∃ synonyms_ncbi,
                 line = output_cells index_field row synonyms_ncbi) rows lines.
Proof.
  induction 1 as [|row d rows added [ncbi ->] _ (lines & Hw & Hall)]; simpl.
  - exists []. by split.
  - rewrite output_row_cells, Hw. eexists. split; [done|]. constructor; eauto.
Qed.

Lemma Forall2_enumerate {A B} (P : A → B → Prop) (start : Z) (l : list A) (k : list B) :
  Forall2 (λ p, P p.2) (enumerate start l) k → Forall2 P l k.
Proof.
  revert start k. induction l as [|x l IH]; intros start k H; simpl in H.
  - inversion H. constructor.
  - inversion H as [|? y ? k' Hxy Hrest]; subst. constructor; [done|]. by eapply IH.
Qed.

(** What a run of [main] on an existing file comes to: no call is
    repeated; a table has the header and one line per processed row, each
    made of the cells of that row and the new field; and the run can only
    fail for want of a header, for an empty header, or on a response that
    does not parse. *)
Lemma main_spec (net : Net) (reader : Reader) (limit : option Z)
    (tr : list event) (r : result (list (list string))) :
  main net (Some reader) limit = (tr, r) →
  calls_once tr
  ∧ match r with
    | Ok table =>
        ∃ index_field rest lines,
          fieldnames reader = Some (index_field :: rest)
          ∧ table = output_fieldnames index_field :: lines
          ∧ Forall2 (λ row line, ∃ synonyms_ncbi,
                       line = output_cells index_field row synonyms_ncbi)
              (limited_rows reader limit) lines
    | Raise e =>
        (e = ValueError ∧ fieldnames reader = None ∧ tr = [])
        ∨ (e = IndexError ∧ fieldnames reader = Some [] ∧ tr = [])
        ∨ parse_error net e
    end.
Proof.
  unfold main, main_body. intros Hrun.
  destruct (fieldnames reader) as [[|index_field rest]|] eqn:Hnames.
  - injection Hrun as <- <-.
    split; [apply (run_inv_calls_once initial_state), initial_state_inv|auto].
  - unfold mbind, M_bind, bind in Hrun. unfold ret at 1 in Hrun.
    destruct (for_each _ _ initial_state) as [st1 [[]|e]] eqn:Hloop;
      destruct (main_loop_spec _ _ _ _ _ initial_state_inv _ _ Hloop) as (Hc & Hres).
    2: { injection Hrun as <- <-. auto. }
    destruct Hres as (_ & added & Hrows & Hall). simpl in Hrows.
    apply (Forall2_enumerate
             (λ row d, ∃ synonyms_ncbi, d = output_row index_field row synonyms_ncbi))
      in Hall.
    destruct (writerows_output _ _ _ Hall) as (lines & Hw & Hlines).
    unfold get_state, lift, ret in Hrun. rewrite Hrows, Hw in Hrun.
    injection Hrun as <- <-. split; [done|]. eauto 10.
  - injection Hrun as <- <-.
    split; [apply (run_inv_calls_once initial_state), initial_state_inv|auto].
Qed.

(** When every response parses, a run on a file with a header column
    writes a table. *)
Lemma main_returns_table (net : Net) (reader : Reader) (limit : option Z)
    (index_field : string) (rest : list string) :
  fieldnames reader = Some (index_field :: rest) →
  ¬ parse_failure net →
  ∃ tr table, main net (Some reader) limit = (tr, Ok table).
Proof.
  intros Hnames Hnet.
  destruct (main net (Some reader) limit) as [tr [table|e]] eqn:Hrun; [eauto|].
  destruct (main_spec _ _ _ _ _ Hrun) as (_ & [(_ & ? & _) | [(_ & ? & _) | (_ & ?)]]);
    [congruence | congruence | done].
Qed.

(** C5. In the history of every run, on every input and with every
    service: no key enters the candidate loop twice, no query string is
    searched twice, and no identifier is fetched twice. *)
Theorem calls_at_most_once (net : Net) (input_path : option Reader) (limit : option Z) :
  let tr := (main net input_path limit).1 in
  NoDup (resolutions tr) ∧ NoDup (searches tr) ∧ NoDup (fetches tr).
Proof.
  destruct input_path as [reader|]; simpl.
  - destruct (main net (Some reader) limit) as [tr r] eqn:Hrun.
    destruct (main_spec _ _ _ _ _ Hrun) as ((? & ? & ?) & _). done.
  - repeat split; apply NoDup_nil_2.
Qed.

(** Three rows, the first two with the same key: one search, one fetch,
    and the candidate loop entered once for each of the two keys. *)
Example calls_of_demo_run :
  (main demo_net (Some (demo_reader "id")) None).1
  = [Resolve ("sci", "Solanum lycopersicum"); Search "Solanum lycopersicum"; Sleep;
     Fetch "4081"; Sleep; Resolve ("row", "2")].
Proof. vm_compute. reflexivity. Qed.

(** C9, as the code has it. Every table written has the six columns index
    column, food_com, food_sci, synonyms_open_tree_of_life,
    synonyms_wiki_search, synonyms_ncbi in this order and one line per
    processed row; in each line the two name fields and the two earlier
    synonym columns are those of the input row, and so is the index value
    when the index column is not itself called synonyms_ncbi. Such a table
    is written whenever the file has a header column and every response
    parses. *)
Theorem output_rows_pass_through (net : Net) (reader : Reader) (limit : option Z)
    (index_field : string) (rest : list string) :
  fieldnames reader = Some (index_field :: rest) →
  (¬ parse_failure net → ∃ tr table, main net (Some reader) limit = (tr, Ok table))
  ∧ ∀ tr table, main net (Some reader) limit = (tr, Ok table) →
      ∃ lines,
        table = [index_field; "food_com"; "food_sci"; "synonyms_open_tree_of_life";
                 "synonyms_wiki_search"; "synonyms_ncbi"] :: lines
        ∧ Forall2 (λ row line, ∃ index_value synonyms_ncbi,
                     line = [index_value; row_get row "food_com"; row_get row "food_sci";
                             row_get row "synonyms_open_tree_of_life";
                             row_get row "synonyms_wiki_search"; synonyms_ncbi]
                     ∧ (index_field ≠ "synonyms_ncbi" →
                        index_value = row_get row index_field))
            (limited_rows reader limit) lines.
Proof.
  intros Hnames. split; [by eapply main_returns_table|].
  intros tr table Hrun.
  destruct (main_spec _ _ _ _ _ Hrun) as (_ & f & rest' & lines & Hf & -> & Hall).
  rewrite Hnames in Hf. injection Hf as <- <-.
  exists lines. split; [done|].
  eapply Forall2_impl; [exact Hall|]. intros row line [ncbi ->].
  eexists _, ncbi. split; [reflexivity|]. intros Hne.
  by rewrite decide_False.
Qed.

Lemma output_rows_pass_through_witness :
  ∃ lines,
    Forall2 (λ row line, ∃ index_value synonyms_ncbi,
               line = [index_value; row_get row "food_com"; row_get row "food_sci";
                       row_get row "synonyms_open_tree_of_life";
                       row_get row "synonyms_wiki_search"; synonyms_ncbi]
               ∧ ("id" ≠ "synonyms_ncbi" → index_value = row_get row "id"))
      (demo_rows "id") lines.
Proof.
  destruct (output_rows_pass_through demo_net (demo_reader "id") None "id"
              ["food_com"; "food_sci"; OPEN_TREE_FIELD; WIKI_FIELD] eq_refl)
    as [Hruns Hrows].
  destruct Hruns as (tr & table & Hrun).
  { intros (h & t & [H|H]); simpl in H; discriminate. }
  destruct (Hrows tr table Hrun) as (lines & _ & Hall).
  exists lines. exact Hall.
Defined.

(** C9, as stated, fails: when the first column of the input is itself
    called synonyms_ncbi, the computed field takes the place of the index
    value. The first input row has index value "1"; the first line written
    starts with the synonyms. *)
Lemma index_column_named_synonyms_ncbi :
  row_get (demo_row "synonyms_ncbi" "1" "Solanum lycopersicum" "tomato") "synonyms_ncbi"
  = "1"
  ∧ main demo_net (Some (demo_reader "synonyms_ncbi")) None
    = ([Resolve ("sci", "Solanum lycopersicum"); Search "Solanum lycopersicum"; Sleep;
        Fetch "4081"; Sleep; Resolve ("row", "2")],
       Ok [["synonyms_ncbi"; "food_com"; "food_sci"; "synonyms_open_tree_of_life";
            "synonyms_wiki_search"; "synonyms_ncbi"];
           ["Lycopersicon esculentum; tomato"; "tomato"; "Solanum lycopersicum";
            "a"; "b"; "Lycopersicon esculentum; tomato"];
           ["Lycopersicon esculentum; tomato"; ""; "Solanum_lycopersicum";
            "a"; "b"; "Lycopersicon esculentum; tomato"];
           [""; ""; ""; "a"; "b"; ""]]).
Proof. split; vm_compute; reflexivity. Qed.

(** ** The limit *)

Lemma main_limited (net : Net) (reader : Reader) (limit : option Z) :
  main net (Some reader) limit
  = main net (Some (with_records reader (limited_rows reader limit))) None.
Proof. reflexivity. Qed.

Lemma main_table_length (net : Net) (reader : Reader) (limit : option Z)
    (tr : list event) (table : list (list string)) :
  main net (Some reader) limit = (tr, Ok table) →
  List.length table = S (List.length (limited_rows reader limit)).
Proof.
  intros Hrun. destruct (main_spec _ _ _ _ _ Hrun) as (_ & f & rest & lines & _ & -> & Hall).
  simpl. f_equal. symmetry. by eapply Forall2_length.
Qed.

(** With a negative limit -k the slice leaves out the last k rows. *)
Lemma negative_limit_drops_last (reader : Reader) (N : Z) :
  N < 0 →
  limited_rows reader (Some N)
  = take (List.length (records reader) - Z.to_nat (- N)) (records reader).
Proof.
  intros HN. unfold limited_rows, slice_to. rewrite (proj2 (Z.ltb_lt N 0)) by done.
  f_equal. lia.
Qed.

(** C4, as the code has it. With a limit N that is not negative, the rows
    processed are the first N rows of the table (all of them when N exceeds
    their number), and the run is the run without limit on the table cut
    to these rows; without limit all rows are processed. Every table
    written has one line per row so processed. *)
Theorem limit_first_rows (net : Net) (reader : Reader) (N : Z) :
  (0 ≤ N →
     limited_rows reader (Some N) = take (Z.to_nat N) (records reader)
     ∧ main net (Some reader) (Some N)
       = main net (Some (with_records reader (take (Z.to_nat N) (records reader)))) None)
  ∧ limited_rows reader None = records reader
  ∧ ∀ limit tr table, main net (Some reader) limit = (tr, Ok table) →
      List.length table = S (List.length (limited_rows reader limit)).
Proof.
  split; [|split; [done|]].
  - intros HN.
    assert (limited_rows reader (Some N) = take (Z.to_nat N) (records reader)) as Hrows.
    { unfold limited_rows, slice_to. by rewrite (proj2 (Z.ltb_ge N 0)). }
    split; [done|]. by rewrite main_limited, Hrows.
  - intros limit tr table. apply main_table_length.
Qed.

Lemma limit_first_rows_witness :
  limited_rows (demo_reader "id") (Some 2) = take 2 (demo_rows "id")
  ∧ limited_rows (demo_reader "id") (Some 7) = demo_rows "id"
  ∧ List.length [["id"; "food_com"; "food_sci"; "synonyms_open_tree_of_life";
                  "synonyms_wiki_search"; "synonyms_ncbi"];
                 ["1"; "tomato"; "Solanum lycopersicum"; "a"; "b";
                  "Lycopersicon esculentum; tomato"]]
    = S (List.length (limited_rows (demo_reader "id") (Some 1))).
Proof.
  split; [|split].
  - destruct (limit_first_rows demo_net (demo_reader "id") 2) as ([H _] & _);
      [lia | exact H].
  - destruct (limit_first_rows demo_net (demo_reader "id") 7) as ([H _] & _);
      [lia | exact H].
  - destruct (limit_first_rows demo_net (demo_reader "id") 1) as (_ & _ & H).
    eapply (H (Some 1)). vm_compute. reflexivity.
Defined.

(** C4, as stated, fails for a negative limit: with limit -1 on three
    rows the rows processed are not the first -1 rows, which are none, but
    the first two, and two lines are written. *)
Lemma negative_limit_keeps_rows :
  limited_rows (demo_reader "id") (Some (-1))
    ≠ take (Z.to_nat (-1)) (records (demo_reader "id"))
  ∧ List.length (limited_rows (demo_reader "id") (Some (-1))) = 2%nat
  ∧ main demo_net (Some (demo_reader "id")) (Some (-1))
    = ([Resolve ("sci", "Solanum lycopersicum"); Search "Solanum lycopersicum"; Sleep;
        Fetch "4081"; Sleep],
       Ok [["id"; "food_com"; "food_sci"; "synonyms_open_tree_of_life";
            "synonyms_wiki_search"; "synonyms_ncbi"];
           ["1"; "tomato"; "Solanum lycopersicum"; "a"; "b";
            "Lycopersicon esculentum; tomato"];
           ["2"; ""; "Solanum_lycopersicum"; "a"; "b";
            "Lycopersicon esculentum; tomato"]]).
Proof.
  split; [|split].
  - intros H. apply (f_equal List.length) in H. vm_compute in H. discriminate.
  - reflexivity.
  - vm_compute. reflexivity.
Qed.


(** * Further properties of the code *)

(** ** Cleaned names *)

Lemma lstrip_chars_elem (l : list ascii) (c : ascii) :
  c ∈ PyStr.lstrip_chars l → c ∈ l.
Proof.
  induction l as [|d l IH]; simpl; [done|].
  destruct (PyStr.is_space d); [|done]. intros Hc. right. by apply IH.
Qed.

Lemma strip_chars_elem (l : list ascii) (c : ascii) :
  c ∈ PyStr.strip_chars l → c ∈ l.
Proof.
  unfold PyStr.strip_chars, PyStr.rstrip_chars. rewrite elem_of_reverse.
  intros Hc%lstrip_chars_elem. rewrite elem_of_reverse in Hc. by apply lstrip_chars_elem.
Qed.

Lemma replaced_chars_no_underscore (l : list ascii) (c : ascii) :
  c ∈ (λ c, if decide (c = "_"%char) then " "%char else c) <$> l → c ≠ "_"%char.
Proof.
  rewrite list_elem_of_fmap. intros (d & -> & _). by case_decide.
Qed.

Lemma replace_chars_id (l : list ascii) :
  (∀ c, c ∈ l → c ≠ "_"%char) →
  (λ c, if decide (c = "_"%char) then " "%char else c) <$> l = l.
Proof.
  induction l as [|d l IH]; intros Hl; simpl; [done|].
  rewrite decide_False by (apply Hl; left). f_equal. apply IH.
  intros c Hc. apply Hl. by right.
Qed.

Lemma format_chars_no_underscore (name : string) (c : ascii) :
  c ∈ PyStr.chars (format_scientific_name name) → c ≠ "_"%char.
Proof.
  unfold format_scientific_name, PyStr.strip, PyStr.replace_char.
  rewrite !chars_of_chars. intros Hc%strip_chars_elem.
  by eapply replaced_chars_no_underscore.
Qed.

(** X1. Cleaning a cleaned name changes nothing, for the scientific and
    for the common name. *)
Theorem format_name_idempotent (name : string) :
  format_scientific_name (format_scientific_name name) = format_scientific_name name
  ∧ format_common_name (format_common_name name) = format_common_name name.
Proof.
  assert (format_scientific_name (format_scientific_name name)
          = format_scientific_name name) as Hidem.
  { pose proof (format_chars_no_underscore name) as Hno.
    unfold format_scientific_name at 1. unfold PyStr.replace_char.
    rewrite replace_chars_id by done. rewrite of_chars_chars.
    unfold format_scientific_name. apply strip_idemp. }
  split; exact Hidem.
Qed.

(** X2. A cleaned name holds no underscore and neither starts nor ends
    with a whitespace character; both names are cleaned the same way. *)
Theorem format_name_clean (name : string) :
  let cleaned := format_scientific_name name in
  (∀ c, c ∈ PyStr.chars cleaned → c ≠ "_"%char)
  ∧ (∀ c, head (PyStr.chars cleaned) = Some c → PyStr.is_space c = false)
  ∧ (∀ c, last (PyStr.chars cleaned) = Some c → PyStr.is_space c = false)
  ∧ format_common_name name = cleaned.
Proof.
  intros cleaned. split; [apply format_chars_no_underscore|].
  subst cleaned. unfold format_scientific_name, PyStr.strip.
  rewrite !chars_of_chars.
  split; [apply strip_chars_head|]. split; [apply strip_chars_last|done].
Qed.

Lemma format_name_clean_witness :
  PyStr.is_space "Z"%char = false ∧ PyStr.is_space "s"%char = false.
Proof.
  destruct (format_name_clean "  Zea_mays ") as (_ & Hhead & Hlast & _).
  split; [apply Hhead | apply Hlast]; reflexivity.
Defined.

(** ** Keys and candidates *)

Ltac truthy_hyps :=
  repeat match goal with
    | H : PyStr.truthy _ = true |- _ => apply truthy_true in H
    | H : PyStr.truthy _ = false |- _ => apply truthy_false in H
    end.

(** X3. Two rows get the same key exactly when they have the same
    non-empty cleaned scientific name, or no scientific name and the same
    non-empty cleaned common name, or no name at all and the same row
    position. *)
Theorem build_key_eq (scientific common scientific' common' : string) (i j : Z) :
  let sci := format_scientific_name scientific in
  let com := format_common_name common in
  let sci' := format_scientific_name scientific' in
  let com' := format_common_name common' in
  build_key scientific common i = build_key scientific' common' j
  ↔ (sci ≠ "" ∧ sci = sci')
    ∨ (sci = "" ∧ sci' = "" ∧ com ≠ "" ∧ com = com')
    ∨ (sci = "" ∧ sci' = "" ∧ com = "" ∧ com' = "" ∧ i = j).
Proof.
  intros sci com sci' com'. unfold build_key. fold sci com sci' com'.
  clearbody sci com sci' com'. unfold PyStr.str_of_int.
  destruct (PyStr.truthy sci) eqn:Hs; destruct (PyStr.truthy sci') eqn:Hs';
    destruct (PyStr.truthy com) eqn:Hc; destruct (PyStr.truthy com') eqn:Hc';
    truthy_hyps;
    (split; [intros [= Heq] | intros [[? ?] | [(? & ? & ? & ?) | (? & ? & ? & ? & ?)]]]);
    try apply pretty_Z_inj in Heq; subst;
    first [done | congruence | by left | by right; left | by right; right].
Qed.

Lemma build_key_eq_witness :
  build_key "Zea_mays" "corn" 3 = build_key " Zea mays " "maize" 8
  ∧ (5 : Z) = 5.
Proof.
  split.
  - apply (build_key_eq "Zea_mays" "corn" " Zea mays " "maize" 3 8).
    left. split; [vm_compute; discriminate | reflexivity].
  - assert (build_key "" "_" 5 = build_key " " "" 5) as H by reflexivity.
    apply (build_key_eq "" "_" " " "" 5 5) in H.
    destruct H as [[H _] | [(_ & _ & H & _) | (_ & _ & _ & _ & H)]];
      [by destruct H | by destruct H | exact H].
Defined.

Lemma ordered_fromkeys_nil (l : list string) : ordered_fromkeys l = [] ↔ l = [].
Proof.
  destruct (ordered_fromkeys_dedup l) as (_ & Hel & _). split.
  - intros Hnil. destruct l as [|x l]; [done|].
    assert (x ∈ ordered_fromkeys (x :: l)) as Hx by (apply Hel; left).
    rewrite Hnil in Hx. by apply elem_of_nil in Hx.
  - by intros ->.
Qed.

Lemma ordered_fromkeys_head (x : string) (l : list string) :
  head (ordered_fromkeys (x :: l)) = Some x.
Proof.
  unfold ordered_fromkeys. simpl.
  destruct (ordered_insert_fold l [x]) as (_ & _ & [t Ht] & _); [apply NoDup_singleton|].
  unfold ordered_insert at 2. simpl in *. by rewrite Ht.
Qed.

Lemma ordered_fromkeys_length (l : list string) :
  (List.length (ordered_fromkeys l) ≤ List.length l)%nat.
Proof.
  destruct (ordered_fromkeys_dedup l) as (Hnd & Hel & _).
  apply submseteq_length, NoDup_submseteq; [done|]. intros x. apply Hel.
Qed.

(** The raw candidate list, case by case. *)
Lemma raw_candidates_unfold (scientific common : string) :
  let sci := format_scientific_name scientific in
  let com := format_common_name common in
  raw_candidates scientific common
  = (if PyStr.truthy sci
     then sci :: (if PyStr.endswith sci "." then [PyStr.drop_last sci] else [])
              ++ (if species_placeholder (PyStr.lower sci)
                  then [PyStr.rsplit1_head " " sci] else [])
     else [])
    ++ (if PyStr.truthy com then [com] else []).
Proof.
  intros sci com. unfold raw_candidates. fold sci com.
  destruct (PyStr.truthy sci), (PyStr.endswith sci "."),
    (species_placeholder (PyStr.lower sci)), (PyStr.truthy com); reflexivity.
Qed.

Lemma build_key_row_tag (scientific common : string) (fallback_index : Z) :
  (build_key scientific common fallback_index).1 = "row"
  ↔ format_scientific_name scientific = "" ∧ format_common_name common = "".
Proof.
  unfold build_key.
  destruct (PyStr.truthy (format_scientific_name scientific)) eqn:Hs;
    destruct (PyStr.truthy (format_common_name common)) eqn:Hc;
    truthy_hyps; simpl; split; try done; intros [? ?]; congruence.
Qed.

Lemma candidate_queries_nil (scientific common : string) :
  candidate_queries scientific common = []
  ↔ format_scientific_name scientific = "" ∧ format_common_name common = "".
Proof.
  unfold candidate_queries.
  rewrite ordered_fromkeys_nil, filter_truthy, raw_candidates_unfold.
  destruct (PyStr.truthy (format_scientific_name scientific)) eqn:Hs;
    destruct (PyStr.truthy (format_common_name common)) eqn:Hc;
    truthy_hyps; simpl.
  - rewrite filter_cons, decide_True by done. split; [done|]. by intros [? _].
  - rewrite filter_cons, decide_True by done. split; [done|]. by intros [? _].
  - rewrite filter_cons, decide_True by done. split; [done|]. by intros [_ ?].
  - done.
Qed.

(** X4. A row has no candidate exactly when both cleaned names are empty,
    that is, exactly when its key is of the row-index kind: such a key
    never has a candidate list. *)
Theorem candidate_queries_empty (scientific common : string) (fallback_index : Z) :
  (candidate_queries scientific common = []
   ↔ format_scientific_name scientific = "" ∧ format_common_name common = "")
  ∧ (candidate_queries scientific common = []
     ↔ (build_key scientific common fallback_index).1 = "row").
Proof.
  split; [apply candidate_queries_nil|].
  by rewrite candidate_queries_nil, build_key_row_tag.
Qed.

Lemma candidate_queries_empty_witness :
  candidate_queries " _ " "_" = [] ∧ (build_key " _ " "_" 4).1 = "row".
Proof.
  destruct (candidate_queries_empty " _ " "_" 4) as [[_ H1] [H2 _]].
  assert (candidate_queries " _ " "_" = []) as H by (apply H1; split; reflexivity).
  split; [exact H | exact (H2 H)].
Defined.

(** X5. The candidate list starts with the cleaned scientific name when
    there is one and is the cleaned common name alone when there is only
    that; a non-empty cleaned common name is always a candidate; every
    candidate is the cleaned scientific name, that name without its last
    character, that name up to its last space, or the cleaned common name;
    so there are at most four. *)
Theorem candidate_queries_shape (scientific common : string) :
  let sci := format_scientific_name scientific in
  let com := format_common_name common in
  let queries := candidate_queries scientific common in
  (sci ≠ "" → head queries = Some sci)
  ∧ (sci = "" → com ≠ "" → queries = [com])
  ∧ (com ≠ "" → com ∈ queries)
  ∧ (∀ q, q ∈ queries →
       q = sci ∨ q = PyStr.drop_last sci ∨ q = PyStr.rsplit1_head " " sci ∨ q = com)
  ∧ (List.length queries ≤ 4)%nat.
Proof.
  intros sci com queries. subst queries. unfold candidate_queries.
  rewrite filter_truthy.
  pose proof (raw_candidates_unfold scientific common) as Hraw. simpl in Hraw.
  fold sci com in Hraw.
  destruct (ordered_fromkeys_dedup
    (filter (λ c, c ≠ "") (raw_candidates scientific common))) as (_ & Hel & _).
  pose proof (ordered_fromkeys_length
    (filter (λ c, c ≠ "") (raw_candidates scientific common))) as Hlen.
  pose proof (length_filter (λ c, c ≠ "") (raw_candidates scientific common)) as Hfil.
  split; [|split; [|split; [|split]]].
  - intros Hs. apply truthy_true in Hs. rewrite Hraw, Hs. simpl.
    apply truthy_true in Hs. rewrite filter_cons, decide_True by done.
    apply ordered_fromkeys_head.
  - intros Hs Hc. rewrite Hraw. apply truthy_false in Hs. apply truthy_true in Hc.
    rewrite Hs, Hc. simpl. apply truthy_true in Hc.
    rewrite filter_cons, decide_True by done. reflexivity.
  - intros Hc. rewrite Hel, list_elem_of_filter. split; [done|].
    rewrite Hraw. apply truthy_true in Hc. rewrite Hc. set_solver.
  - intros q. rewrite Hel, list_elem_of_filter, Hraw. intros [_ Hq].
    destruct (PyStr.truthy sci), (PyStr.endswith sci "."),
      (species_placeholder (PyStr.lower sci)), (PyStr.truthy com); set_solver.
  - etrans; [exact Hlen|]. etrans; [exact Hfil|]. rewrite Hraw.
    destruct (PyStr.truthy sci), (PyStr.endswith sci "."),
      (species_placeholder (PyStr.lower sci)), (PyStr.truthy com); simpl; lia.
Qed.

Lemma candidate_queries_shape_witness :
  head (candidate_queries "Bar." "bar") = Some "Bar."
  ∧ candidate_queries "_" " sweet_corn" = ["sweet corn"]
  ∧ "bar" ∈ candidate_queries "Bar." "bar".
Proof.
  split; [|split].
  - destruct (candidate_queries_shape "Bar." "bar") as (H & _).
    apply H. vm_compute. discriminate.
  - destruct (candidate_queries_shape "_" " sweet_corn") as (_ & H & _).
    apply H; vm_compute; [reflexivity | discriminate].
  - destruct (candidate_queries_shape "Bar." "bar") as (_ & _ & H & _).
    apply H. vm_compute. discriminate.
Defined.

(** ** The genus fallback *)

Lemma before_last_none (sep : ascii) (l : list ascii) :
  sep ∉ l → PyStr.before_last sep l = None.
Proof.
  induction l as [|c l IH]; intros Hl; simpl; [done|].
  rewrite IH by set_solver. rewrite decide_False; [done|]. set_solver.
Qed.

Lemma before_last_app (sep : ascii) (p t : list ascii) :
  sep ∉ t → PyStr.before_last sep (p ++ sep :: t) = Some p.
Proof.
  intros Ht. induction p as [|c p IH]; simpl.
  - by rewrite before_last_none, decide_True.
  - by rewrite IH.
Qed.

Lemma lower_char_space (c : ascii) : PyStr.lower_char c = " "%char → c = " "%char.
Proof. destruct c as [[] [] [] [] [] [] [] []]; vm_compute; congruence. Qed.

Lemma of_chars_app (a b : list ascii) :
  PyStr.of_chars (a ++ b) = PyStr.of_chars a +:+ PyStr.of_chars b.
Proof. induction a as [|c a IH]; simpl; [done|]. by rewrite IH. Qed.

(** A name whose lower-case form ends in a space and a token without
    spaces is some text, a space and a token of that lower-case form. *)
Lemma placeholder_split (sci suffix : string) (tok : list ascii) :
  PyStr.chars suffix = " "%char :: tok → " "%char ∉ tok →
  PyStr.endswith (PyStr.lower sci) suffix = true →
  ∃ a b, PyStr.chars sci = a ++ " "%char :: b
    ∧ (" "%char ∉ b) ∧ PyStr.lower_char <$> b = tok.
Proof.
  intros Hsuf Htok Hends. unfold PyStr.endswith in Hends.
  apply bool_decide_eq_true in Hends as [pre Hpre].
  unfold PyStr.lower in Hpre. rewrite chars_of_chars, Hsuf in Hpre.
  apply fmap_app_inv in Hpre as (a & l2 & _ & Hl2 & Hsci).
  destruct l2 as [|c b]; [done|]. injection Hl2 as Hc Hb.
  symmetry in Hc. apply lower_char_space in Hc as ->.
  exists a, b. split; [done|]. split; [|done].
  intros Hin. apply Htok. rewrite Hb.
  apply list_elem_of_fmap. exists " "%char. by split.
Qed.

(** X6. When the lower-case form of the cleaned scientific name ends in
    one of the placeholders " sp.", " sp", " spp." or " spp", the name is a
    non-empty genus part, a space and the placeholder token; the genus part
    is what the split at the last space gives, and it is one of the
    candidates. *)
Theorem genus_fallback (scientific common : string) :
  let sci := format_scientific_name scientific in
  species_placeholder (PyStr.lower sci) = true →
  ∃ genus token,
    sci = genus +:+ " " +:+ token
    ∧ PyStr.lower token ∈ ["sp."; "sp"; "spp."; "spp"]
    ∧ genus ≠ ""
    ∧ PyStr.rsplit1_head " " sci = genus
    ∧ genus ∈ candidate_queries scientific common.
Proof.
  intros sci Hplace.
  assert (∃ a b, PyStr.chars sci = a ++ " "%char :: b ∧ (" "%char ∉ b)
            ∧ PyStr.of_chars (PyStr.lower_char <$> b) ∈ ["sp."; "sp"; "spp."; "spp"])
    as (a & b & Hsci & Hb & Htok).
  { unfold species_placeholder in Hplace.
    apply orb_true_iff in Hplace as [Hplace|H4].
    apply orb_true_iff in Hplace as [Hplace|H3].
    apply orb_true_iff in Hplace as [H1|H2].
    - eapply placeholder_split in H1 as (a & b & ? & ? & Hb);
        [|reflexivity|by vm_compute; set_solver].
      exists a, b. rewrite Hb. split; [done|]. split; [done|]. set_solver.
    - eapply placeholder_split in H2 as (a & b & ? & ? & Hb);
        [|reflexivity|by vm_compute; set_solver].
      exists a, b. rewrite Hb. split; [done|]. split; [done|]. set_solver.
    - eapply placeholder_split in H3 as (a & b & ? & ? & Hb);
        [|reflexivity|by vm_compute; set_solver].
      exists a, b. rewrite Hb. split; [done|]. split; [done|]. set_solver.
    - eapply placeholder_split in H4 as (a & b & ? & ? & Hb);
        [|reflexivity|by vm_compute; set_solver].
      exists a, b. rewrite Hb. split; [done|]. split; [done|]. set_solver. }
  assert (PyStr.rsplit1_head " " sci = PyStr.of_chars a) as Hsplit.
  { unfold PyStr.rsplit1_head. by rewrite Hsci, before_last_app. }
  assert (PyStr.of_chars a ≠ "") as Hgenus.
  { rewrite of_chars_nil. intros ->. simpl in Hsci.
    assert (PyStr.is_space " "%char = false) as Hsp; [|done].
    apply (strip_chars_head
      (PyStr.chars (PyStr.replace_char "_" " " scientific))).
    unfold sci, format_scientific_name, PyStr.strip in Hsci.
    rewrite chars_of_chars in Hsci. by rewrite Hsci. }
  exists (PyStr.of_chars a), (PyStr.of_chars b).
  split; [|split; [|split; [done|split; [done|]]]].
  - rewrite <- (of_chars_chars sci), Hsci, of_chars_app. reflexivity.
  - unfold PyStr.lower. by rewrite chars_of_chars.
  - unfold candidate_queries. rewrite filter_truthy.
    destruct (ordered_fromkeys_dedup
      (filter (λ c, c ≠ "") (raw_candidates scientific common))) as (_ & Hel & _).
    rewrite Hel, list_elem_of_filter. split; [done|].
    pose proof (raw_candidates_unfold scientific common) as Hraw. simpl in Hraw.
    fold sci in Hraw. rewrite Hraw, Hplace, Hsplit.
    assert (PyStr.truthy sci = true) as ->.
    { apply truthy_true. intros Hnil. rewrite Hnil in Hsci. by destruct a. }
    set_solver.
Qed.

Lemma genus_fallback_witness :
  ∃ genus token,
    format_scientific_name "Malus_Spp." = genus +:+ " " +:+ token
    ∧ PyStr.lower token ∈ ["sp."; "sp"; "spp."; "spp"]
    ∧ genus ≠ ""
    ∧ PyStr.rsplit1_head " " (format_scientific_name "Malus_Spp.") = genus
    ∧ genus ∈ candidate_queries "Malus_Spp." "apple".
Proof. apply (genus_fallback "Malus_Spp." "apple"). reflexivity. Defined.

(** ** Reading the identifier *)

Lemma first_id_some (ids : list Element) (t : string) :
  first_id ids = Some t
  ↔ ∃ pre id_elem post raw,
      ids = pre ++ id_elem :: post
      ∧ Forall (λ e, text e = None ∨ text e = Some "") pre
      ∧ text id_elem = Some raw ∧ raw ≠ "" ∧ t = PyStr.strip raw.
Proof.
  induction ids as [|e ids IH]; simpl.
  - split; [done|]. intros (pre & ? & ? & ? & Hnil & _). by destruct pre.
  - destruct (text e) as [raw|] eqn:He; simpl.
    + destruct (PyStr.truthy raw) eqn:Hraw; truthy_hyps.
      * split.
        -- intros [= <-]. exists [], e, ids, raw. by repeat split.
        -- intros ([|e' pre] & x & post & raw' & Hids & Hpre & Hx & Hne & ->);
             simpl in Hids; injection Hids as <- _.
           ++ congruence.
           ++ apply Forall_cons in Hpre as [[?|?] _]; congruence.
      * subst raw. rewrite IH. split.
        -- intros (pre & x & post & raw' & -> & Hpre & ?).
           exists (e :: pre), x, post, raw'. split; [done|].
           split; [constructor; [by right|done]|done].
        -- intros ([|e' pre] & x & post & raw' & Hids & Hpre & Hx & Hne & ->);
             simpl in Hids; injection Hids as <- ->.
           ++ congruence.
           ++ apply Forall_cons in Hpre as [_ Hpre]. eauto 10.
    + rewrite IH. split.
      * intros (pre & x & post & raw' & -> & Hpre & ?).
        exists (e :: pre), x, post, raw'. split; [done|].
        split; [constructor; [by left|done]|done].
      * intros ([|e' pre] & x & post & raw' & Hids & Hpre & Hx & Hne & ->);
          simpl in Hids; injection Hids as <- ->.
        -- congruence.
        -- apply Forall_cons in Hpre as [_ Hpre]. eauto 10.
Qed.

Lemma first_id_none (ids : list Element) :
  first_id ids = None ↔ Forall (λ e, text e = None ∨ text e = Some "") ids.
Proof.
  induction ids as [|e ids IH]; simpl; [by split|].
  destruct (text e) as [raw|] eqn:He; simpl.
  - destruct (PyStr.truthy raw) eqn:Hraw; truthy_hyps.
    + split; [done|]. intros [[?|?] _]%Forall_cons; congruence.
    + subst raw. rewrite IH, Forall_cons. rewrite He. naive_solver.
  - rewrite IH, Forall_cons, He. naive_solver.
Qed.

(** X7. When the response has an id list, the search reads the trimmed
    text of the first [Id] element of the list that has a text, whatever
    comes after it, and reads nothing exactly when no [Id] element has a
    text. An identifier made of whitespace only is read as the empty
    string. *)
Theorem search_taxid_read_first (root id_list : Element) :
  find root "IdList" = Some id_list →
  (∀ t, search_taxid_read (WellFormed root) = Ok (Some t)
        ↔ ∃ pre id_elem post raw,
            findall id_list "Id" = pre ++ id_elem :: post
            ∧ Forall (λ e, text e = None ∨ text e = Some "") pre
            ∧ text id_elem = Some raw ∧ raw ≠ "" ∧ t = PyStr.strip raw)
  ∧ (search_taxid_read (WellFormed root) = Ok None
     ↔ Forall (λ e, text e = None ∨ text e = Some "") (findall id_list "Id")).
Proof.
  intros Hlist. unfold search_taxid_read. simpl. rewrite Hlist. split.
  - intros t. rewrite <- first_id_some. split; [by intros [= ?]|by intros ->].
  - rewrite <- first_id_none. split; [by intros [= ?]|by intros ->].
Qed.

Lemma search_taxid_read_first_witness :
  search_taxid_read (WellFormed
    (Elem "eSearchResult" None
       [Elem "Count" (Some "2") [];
        Elem "IdList" None [Elem "Id" None []; Elem "Id" (Some " 4081 ") [];
                            Elem "Id" (Some "4082") []]]))
  = Ok (Some "4081").
Proof.
  apply (search_taxid_read_first
    (Elem "eSearchResult" None
       [Elem "Count" (Some "2") [];
        Elem "IdList" None [Elem "Id" None []; Elem "Id" (Some " 4081 ") [];
                            Elem "Id" (Some "4082") []]])
    (Elem "IdList" None [Elem "Id" None []; Elem "Id" (Some " 4081 ") [];
                         Elem "Id" (Some "4082") []]) eq_refl).
  exists [Elem "Id" None []], (Elem "Id" (Some " 4081 ") []),
    [Elem "Id" (Some "4082") []], " 4081 ".
  split; [reflexivity|]. split; [repeat constructor|].
  split; [reflexivity|]. split; [discriminate|reflexivity].
Defined.

(** ** The run as a sequence of state changes *)

Section runs.
Context (net : Net) (nc : gmap Key (list string)).

(** A state change only adds: to the history at its end, to each cache
    under a key that was not there, to the output rows at their end. *)
Lemma step_grows (st st' : State) :
  step net nc st st' →
  trace st `prefix_of` trace st'
  ∧ query_cache st ⊆ query_cache st'
  ∧ taxid_cache st ⊆ taxid_cache st'
  ∧ synonym_cache st ⊆ synonym_cache st'
  ∧ updated_rows st `prefix_of` updated_rows st'.
Proof.
  destruct 1; simpl; repeat split; try done;
    try (by apply insert_subseteq);
    try (by apply prefix_app_r);
    try (rewrite <- app_assoc; by apply prefix_app_r).
Qed.

Lemma steps_grow (st st' : State) :
  rtc (step net nc) st st' →
  trace st `prefix_of` trace st'
  ∧ query_cache st ⊆ query_cache st'
  ∧ taxid_cache st ⊆ taxid_cache st'
  ∧ synonym_cache st ⊆ synonym_cache st'
  ∧ updated_rows st `prefix_of` updated_rows st'.
Proof.
  induction 1 as [st|st st1 st2 Hstep _ (? & ? & ? & ? & ?)]; [done|].
  destruct (step_grows _ _ Hstep) as (? & ? & ? & ? & ?).
  repeat split; by etrans.
Qed.

Lemma runs_weaken {A} (st : State) (out : State * result A)
    (post post' : A → State → Prop) :
  runs net nc st out post →
  (∀ a st', rtc (step net nc) st st' → post a st' → post' a st') →
  runs net nc st out post'.
Proof. destruct out as [st' [a|e]]; simpl; [|done]. intros [? ?] Himp. auto. Qed.

Lemma runs_bind {A B} (st : State) (m : M A) (k : A → M B)
    (mid : A → State → Prop) (post : B → State → Prop) :
  runs net nc st (m st) mid →
  (∀ a st1, rtc (step net nc) st st1 → mid a st1 →
     runs net nc st1 (k a st1) (λ b st2, rtc (step net nc) st st2 → post b st2)) →
  runs net nc st ((m ≫= k) st) post.
Proof.
  intros Hm Hk. unfold mbind, M_bind, bind.
  destruct (m st) as [st1 [a|e]]; simpl in Hm; [|done].
  destruct Hm as [Hsteps Hmid]. specialize (Hk a st1 Hsteps Hmid).
  destruct (k a st1) as [st2 [b|e]]; simpl in *.
  - destruct Hk as [Hsteps2 Hpost].
    assert (rtc (step net nc) st st2) by (by etrans). auto.
  - destruct Hk as (st0 & Hsteps0 & Habort). exists st0. split; [by etrans|done].
Qed.

Lemma runs_after {A} (st st1 : State) (out : State * result A)
    (post : A → State → Prop) :
  rtc (step net nc) st st1 →
  runs net nc st1 out (λ a st2, rtc (step net nc) st st2 → post a st2) →
  runs net nc st out post.
Proof.
  intros Hsteps. destruct out as [st2 [a|e]]; simpl.
  - intros [Hsteps2 Hpost]. assert (rtc (step net nc) st st2) by (by etrans). auto.
  - intros (st0 & Hsteps0 & Habort). exists st0. split; [by etrans|done].
Qed.

(** The candidate loop as state changes. *)
Lemma resolve_loop_runs (key : Key) (queries : list string) (taxid0 : option string)
    (st : State) :
  (∀ q, q ∈ queries → candidate_of nc key q) →
  runs net nc st (resolve_loop net queries taxid0 st)
    (λ taxid st',
       taxid_cache st' = taxid_cache st
       ∧ synonym_cache st' = synonym_cache st
       ∧ updated_rows st' = updated_rows st
       ∧ (taxid = taxid0
          ∨ ∃ q, candidate_of nc key q ∧ query_cache st' !! q = Some taxid)).
Proof.
  revert taxid0 st. induction queries as [|query rest IH]; intros taxid0 st Hcand.
  - simpl. split; [done|]. auto.
  - assert (candidate_of nc key query) as Hquery by (apply Hcand; left).
    assert (∀ q, q ∈ rest → candidate_of nc key q) as Hrest
      by (intros q Hq; apply Hcand; by right).
    assert (∀ st1 found,
      rtc (step net nc) st st1 →
      taxid_cache st1 = taxid_cache st → synonym_cache st1 = synonym_cache st →
      updated_rows st1 = updated_rows st →
      query_cache st1 !! query = Some found →
      runs net nc st
        ((if truthy_opt found then λ st : State, (st, Ok found)
          else resolve_loop net rest found) st1)
        (λ taxid st',
           taxid_cache st' = taxid_cache st
           ∧ synonym_cache st' = synonym_cache st
           ∧ updated_rows st' = updated_rows st
           ∧ (taxid = taxid0
              ∨ ∃ q, candidate_of nc key q ∧ query_cache st' !! q = Some taxid)))
      as Hcont.
    { intros st1 found Hsteps Htc Hsc Hrows Hfound. destruct (truthy_opt found).
      - simpl. split; [done|]. repeat split; try done. right. eauto.
      - apply (runs_after _ st1); [done|].
        eapply runs_weaken; [apply (IH found st1 Hrest)|].
        intros taxid st' Hsteps' (Htc' & Hsc' & Hrows' & Horigin) _.
        repeat split; try congruence. right. destruct Horigin as [->|?]; [|done].
        exists query. split; [done|].
        destruct (steps_grow _ _ Hsteps') as (_ & Hq & _).
        by eapply lookup_weaken. }
    simpl. unfold mbind, M_bind, bind, get_state.
    destruct (decide (query_cache st !! query = None)) as [Hnew|Hold].
    + unfold search_taxid, mbind, M_bind, bind, get_state, emit, lift,
        set_query_cache, subscript. unfold ret, raise. simpl.
      pose proof (step_search net nc st key query) as Hstep.
      pose proof (abort_search net nc st key query) as Habort.
      unfold search_answer in Hstep, Habort.
      destruct (esearch net (trace st) (query ++ "[All Names]")%string) as [|body].
      * simpl. rewrite lookup_insert_eq.
        apply (Hcont _ None); try done; [|apply lookup_insert_eq].
        apply rtc_once. by apply (Hstep None).
      * destruct (search_taxid_read body) as [found|e] eqn:Hread.
        -- simpl. rewrite lookup_insert_eq.
           apply (Hcont _ found); try done; [|apply lookup_insert_eq].
           apply rtc_once. by apply (Hstep found).
        -- simpl. exists st. split; [done|]. by apply (Habort e).
    + unfold subscript, ret. destruct (query_cache st !! query) as [found|] eqn:Hcached;
        [|done]. by apply (Hcont st found).
Qed.

(** Resolving a key as state changes. *)
Lemma resolve_key_runs (key : Key) (queries : list string) (st : State) :
  (∀ q, q ∈ queries → candidate_of nc key q) →
  runs net nc st (resolve_key net queries key st)
    (λ taxid st',
       taxid_cache st' !! key = Some taxid
       ∧ synonym_cache st' = synonym_cache st
       ∧ updated_rows st' = updated_rows st).
Proof.
  intros Hcand. unfold resolve_key, mbind, M_bind, bind, get_state.
  destruct (decide (is_Some (taxid_cache st !! key))) as [[found Hold]|Hnew].
  - unfold subscript. rewrite Hold. simpl. by split.
  - apply eq_None_not_Some in Hnew. unfold emit at 1. simpl.
    set (st1 := {| trace := trace st ++ [Resolve key] |}).
    assert (step net nc st st1) as Hstep1 by (by apply step_resolve).
    pose proof (resolve_loop_runs key queries None st1 Hcand) as Hloop.
    destruct (resolve_loop net queries None st1) as [st2 [taxid|e]]; simpl in *.
    + destruct Hloop as (Hsteps & Htc & Hsc & Hrows & Horigin).
      assert (step net nc st2 (exec (set_taxid_cache key taxid) st2)) as Hstep2.
      { apply step_store; [by rewrite Htc|]. destruct Horigin; auto. }
      split.
      * eapply rtc_l; [exact Hstep1|]. eapply rtc_r; [exact Hsteps|exact Hstep2].
      * rewrite lookup_insert_eq. by rewrite Hsc, Hrows.
    + destruct Hloop as (st0 & Hsteps & Habort). exists st0.
      split; [by eapply rtc_l|done].
Qed.

(** Computing the new field as state changes. *)
Lemma synonyms_field_runs (key : Key) (taxid : option string) (st : State) :
  taxid_cache st !! key = Some taxid →
  runs net nc st (synonyms_field net taxid st)
    (λ synonyms_ncbi st',
       taxid_cache st' = taxid_cache st
       ∧ updated_rows st' = updated_rows st
       ∧ synonyms_ncbi = field_value st' taxid
       ∧ (truthy_opt taxid = true → is_Some (synonym_cache st' !! default "" taxid))).
Proof.
  intros Hkey. unfold synonyms_field, field_value.
  destruct (truthy_opt taxid) eqn:Htruthy; [|simpl; by repeat split].
  destruct taxid as [t|]; [|done]. simpl in Htruthy. truthy_hyps. simpl.
  unfold mbind, M_bind, bind, get_state.
  destruct (decide (synonym_cache st !! t = None)) as [Hnew|Hold].
  - unfold fetch_synonyms_for_taxid, mbind, M_bind, bind, get_state, emit, lift,
      set_synonym_cache. unfold ret. simpl.
    pose proof (step_fetch net nc st key t) as Hstep.
    pose proof (abort_fetch net nc st key t) as Habort.
    unfold fetch_answer in Hstep, Habort.
    destruct (efetch net (trace st) t) as [|body].
    + simpl. split; [apply rtc_once; by apply (Hstep [])|].
      rewrite lookup_insert_eq. repeat split; eauto.
    + destruct (extract_synonyms body) as [names|e] eqn:Hread; simpl.
      * split; [apply rtc_once; by apply (Hstep names)|].
        rewrite lookup_insert_eq. repeat split; eauto.
      * exists st. split; [done|]. by apply (Habort e).
  - unfold ret. simpl. split; [done|]. repeat split; try done.
    intros _. by apply not_eq_None_Some.
Qed.

Lemma row_settled_steps (st st' : State) (key : Key) (synonyms_ncbi : string) :
  rtc (step net nc) st st' →
  row_settled st key synonyms_ncbi → row_settled st' key synonyms_ncbi.
Proof.
  intros (_ & _ & Htc & Hsc & _)%steps_grow (taxid & Hkey & -> & Hsyn).
  exists taxid. split; [by eapply lookup_weaken|]. unfold field_value.
  destruct (truthy_opt taxid); [|done].
  destruct (Hsyn eq_refl) as [s Hs].
  assert (synonym_cache st' !! default "" taxid = Some s) as Hs'
    by (by eapply lookup_weaken).
  rewrite Hs, Hs'. eauto.
Qed.

(** One turn of the main loop as state changes. *)
Lemma process_row_runs (index_field : string) (idx : Z) (row : Row) (st : State) :
  runs net nc st (process_row net index_field nc (idx, row) st)
    (λ _ st', ∃ synonyms_ncbi,
       updated_rows st' = updated_rows st ++ [output_row index_field row synonyms_ncbi]
       ∧ row_settled st' (main_pass_key idx row) synonyms_ncbi).
Proof.
  set (key := main_pass_key idx row).
  assert (∀ q, q ∈ default [] (nc !! key) → candidate_of nc key q) as Hcand.
  { intros q Hq. unfold candidate_of.
    destruct (nc !! key) as [queries|]; [eauto|]. by apply elem_of_nil in Hq. }
  unfold process_row, mbind, M_bind, bind. fold key.
  pose proof (resolve_key_runs key _ st Hcand) as H1.
  destruct (resolve_key net _ key st) as [st1 [taxid|e]]; simpl in *; [|done].
  destruct H1 as (Hsteps1 & Hkey & _ & Hrows1).
  pose proof (synonyms_field_runs key taxid st1 Hkey) as H2.
  destruct (synonyms_field net taxid st1) as [st2 [ncbi|e]]; simpl in *.
  - destruct H2 as (Hsteps2 & Htc & Hrows2 & Hfield & Hsyn). split.
    + etrans; [exact Hsteps1|]. eapply rtc_r; [exact Hsteps2|].
      apply (step_row net nc st2).
    + exists ncbi. split; [by rewrite Hrows2, Hrows1|].
      exists taxid. simpl. by rewrite Htc.
  - destruct H2 as (st0 & Hsteps2 & Habort). exists st0. split; [by etrans|done].
Qed.

(** The main loop as state changes: every row gets its output row, and
    what was found for its key stays in the caches to the end. *)
Lemma main_loop_runs (index_field : string) (ps : list (Z * Row)) (st : State) :
  runs net nc st (for_each ps (process_row net index_field nc) st)
    (λ _ st', ∃ added,
       updated_rows st' = updated_rows st ++ added
       ∧ Forall2 (λ p d, ∃ synonyms_ncbi,
                    d = output_row index_field p.2 synonyms_ncbi
                    ∧ row_settled st' (main_pass_key p.1 p.2) synonyms_ncbi)
           ps added).
Proof.
  revert st. induction ps as [|[idx row] ps IH]; intros st; cbn [for_each].
  - simpl. split; [done|]. exists []. by rewrite app_nil_r.
  - unfold mbind, M_bind, bind.
    pose proof (process_row_runs index_field idx row st) as H1.
    destruct (process_row net index_field nc (idx, row) st) as [st1 [[]|e]];
      simpl in H1; [|done].
    destruct H1 as (Hsteps1 & ncbi & Hrows1 & Hsettled).
    specialize (IH st1).
    destruct (for_each ps (process_row net index_field nc) st1) as [st2 [[]|e]];
      simpl in *.
    + destruct IH as (Hsteps2 & added & Hrows2 & Hall). split; [by etrans|].
      exists (output_row index_field row ncbi :: added).
      split; [by rewrite Hrows2, Hrows1, <- app_assoc|].
      constructor; [|done]. exists ncbi. split; [done|].
      by eapply row_settled_steps.
    + destruct IH as (st0 & Hsteps2 & Habort). exists st0. split; [by etrans|done].
Qed.

End runs.

Lemma writerows_settled (index_field : string) (P : Z * Row → string → Prop)
    (ps : list (Z * Row)) (added : list Row) :
  Forall2 (λ p d, ∃ synonyms_ncbi,
             d = output_row index_field p.2 synonyms_ncbi ∧ P p synonyms_ncbi)
    ps added →
  ∃ lines, writerows (output_fieldnames index_field) added = Ok lines
    ∧ Forall2 (λ p line, ∃ synonyms_ncbi,
                 line = output_cells index_field p.2 synonyms_ncbi ∧ P p synonyms_ncbi)
        ps lines.
Proof.
  induction 1 as [|p d ps added (ncbi & -> & HP) _ (lines & Hw & Hall)]; simpl.
  - exists []. by split.
  - rewrite output_row_cells, Hw. eexists. split; [done|]. constructor; eauto.
Qed.

(** A run of [main] on a file with a header column, as state changes from
    the initial state, with the candidate table of the pre-scan. *)
Lemma main_runs (net : Net) (reader : Reader) (limit : option Z)
    (index_field : string) (rest : list string) :
  fieldnames reader = Some (index_field :: rest) →
  let rows := limited_rows reader limit in
  ∃ st' r, main net (Some reader) limit = (trace st', r)
    ∧ match r with
      | Ok table =>
          rtc (step net (prescan rows)) initial_state st'
          ∧ ∃ lines, table = output_fieldnames index_field :: lines
              ∧ Forall2 (λ p line, ∃ synonyms_ncbi,
                           line = output_cells index_field p.2 synonyms_ncbi
                           ∧ row_settled st' (main_pass_key p.1 p.2) synonyms_ncbi)
                  (enumerate 1 rows) lines
      | Raise e =>
          ∃ st0, rtc (step net (prescan rows)) initial_state st0
            ∧ abort net (prescan rows) st0 st' e
      end.
Proof.
  intros Hnames rows. unfold main, main_body. rewrite Hnames. fold rows.
  unfold mbind, M_bind, bind. unfold ret at 1.
  pose proof (main_loop_runs net (prescan rows) index_field (enumerate 1 rows)
                initial_state) as Hloop.
  destruct (for_each _ _ initial_state) as [st1 [[]|e]]; simpl in Hloop.
  - destruct Hloop as (Hsteps & added & Hrows & Hall). simpl in Hrows.
    destruct (writerows_settled index_field
                (λ p ncbi, row_settled st1 (main_pass_key p.1 p.2) ncbi) _ _ Hall)
      as (lines & Hw & Hlines).
    unfold get_state, lift, ret. rewrite Hrows, Hw.
    exists st1, (Ok (output_fieldnames index_field :: lines)). eauto.
  - exists st1, (Raise e). eauto.
Qed.

(** ** The pause after every request *)

Lemma step_throttled (net : Net) (nc : gmap Key (list string)) (st st' : State) :
  step net nc st st' → throttled (trace st) → throttled (trace st').
Proof.
  destruct 1; simpl; intros Htr; try done.
  - by constructor.
  - rewrite <- app_assoc. by constructor.
  - rewrite <- app_assoc. by constructor.
Qed.

Lemma steps_throttled (net : Net) (nc : gmap Key (list string)) (st st' : State) :
  rtc (step net nc) st st' → throttled (trace st) → throttled (trace st').
Proof. induction 1; eauto using step_throttled. Qed.

Lemma abort_call (net : Net) (nc : gmap Key (list string)) (st0 st' : State) (e : exn) :
  abort net nc st0 st' e →
  e = ParseError ∧ ∃ call, is_call call ∧ trace st' = trace st0 ++ [call].
Proof.
  destruct 1 as [st key query e _ _ Hanswer | st key taxid e _ _ _ Hanswer]; simpl.
  - split; [|by exists (Search query)]. unfold search_answer in Hanswer.
    destruct (esearch _ _ _); [done|]. by apply search_taxid_read_raise in Hanswer as [? _].
  - split; [|by exists (Fetch taxid)]. unfold fetch_answer in Hanswer.
    destruct (efetch _ _ _); [done|]. by apply extract_synonyms_raise in Hanswer as [? _].
Qed.

(** In a throttled history every request has the pause right after it and
    every pause a request right before it. *)
Lemma throttled_lookup (tr : list event) :
  throttled tr →
  (∀ i e, tr !! i = Some e → is_call e → tr !! S i = Some Sleep)
  ∧ (∀ j, tr !! j = Some Sleep → ∃ i e, j = S i ∧ tr !! i = Some e ∧ is_call e).
Proof.
  induction 1 as [|tr key _ [IH1 IH2]|tr query _ [IH1 IH2]|tr taxid _ [IH1 IH2]].
  - split; [intros i e Hi|intros j Hi]; by rewrite lookup_nil in Hi.
  - split.
    + intros i e Hi Hcall. apply lookup_app_Some in Hi as [Hi|[_ Hi]].
      * apply lookup_app_l_Some. eauto.
      * apply list_lookup_singleton_Some in Hi as [_ <-]. done.
    + intros j Hj. apply lookup_app_Some in Hj as [Hj|[_ Hj]].
      * destruct (IH2 j Hj) as (i & e & -> & Hi & Hcall).
        exists i, e. split; [done|]. split; [by apply lookup_app_l_Some|done].
      * by apply list_lookup_singleton_Some in Hj as [_ ?].
  - split.
    + intros i e Hi Hcall. apply lookup_app_Some in Hi as [Hi|[Hlen Hi]].
      * apply lookup_app_l_Some. eauto.
      * destruct (i - List.length tr)%nat as [|[|n]] eqn:Hn; simpl in Hi;
          simplify_eq; try done.
        assert (S i = List.length tr + 1)%nat as -> by lia.
        by rewrite lookup_app_r, Nat.add_sub' by lia.
    + intros j Hj. apply lookup_app_Some in Hj as [Hj|[Hlen Hj]].
      * destruct (IH2 j Hj) as (i & e & -> & Hi & Hcall).
        exists i, e. split; [done|]. split; [by apply lookup_app_l_Some|done].
      * destruct (j - List.length tr)%nat as [|[|n]] eqn:Hn; simpl in Hj;
          simplify_eq.
        exists (List.length tr), (Search query). split; [lia|]. split; [|done].
        by rewrite lookup_app_r, Nat.sub_diag by lia.
  - split.
    + intros i e Hi Hcall. apply lookup_app_Some in Hi as [Hi|[Hlen Hi]].
      * apply lookup_app_l_Some. eauto.
      * destruct (i - List.length tr)%nat as [|[|n]] eqn:Hn; simpl in Hi;
          simplify_eq; try done.
        assert (S i = List.length tr + 1)%nat as -> by lia.
        by rewrite lookup_app_r, Nat.add_sub' by lia.
    + intros j Hj. apply lookup_app_Some in Hj as [Hj|[Hlen Hj]].
      * destruct (IH2 j Hj) as (i & e & -> & Hi & Hcall).
        exists i, e. split; [done|]. split; [by apply lookup_app_l_Some|done].
      * destruct (j - List.length tr)%nat as [|[|n]] eqn:Hn; simpl in Hj;
          simplify_eq.
        exists (List.length tr), (Fetch taxid). split; [lia|]. split; [|done].
        by rewrite lookup_app_r, Nat.sub_diag by lia.
Qed.

(** A run on an existing file ends before its first request, for want of a
    header, or is a sequence of state changes. *)
Lemma main_cases (net : Net) (reader : Reader) (limit : option Z) :
  let rows := limited_rows reader limit in
  ∃ st' r, main net (Some reader) limit = (trace st', r)
    ∧ ((trace st' = [] ∧ ∃ e, r = Raise e
        ∧ (e = ValueError ∧ fieldnames reader = None
           ∨ e = IndexError ∧ fieldnames reader = Some []))
       ∨ ∃ index_field rest,
           fieldnames reader = Some (index_field :: rest)
           ∧ match r with
             | Ok table =>
                 rtc (step net (prescan rows)) initial_state st'
                 ∧ ∃ lines, table = output_fieldnames index_field :: lines
                     ∧ Forall2 (λ p line, ∃ synonyms_ncbi,
                                  line = output_cells index_field p.2 synonyms_ncbi
                                  ∧ row_settled st' (main_pass_key p.1 p.2)
                                      synonyms_ncbi)
                         (enumerate 1 rows) lines
             | Raise e =>
                 ∃ st0, rtc (step net (prescan rows)) initial_state st0
                   ∧ abort net (prescan rows) st0 st' e
             end).
Proof.
  intros rows. destruct (fieldnames reader) as [[|index_field rest]|] eqn:Hnames.
  - exists initial_state, (Raise IndexError). split.
    + unfold main, main_body. by rewrite Hnames.
    + left. split; [done|]. eauto.
  - destruct (main_runs net reader limit index_field rest Hnames) as (st' & r & Hrun & Hr).
    exists st', r. split; [done|]. right. eauto.
  - exists initial_state, (Raise ValueError). split.
    + unfold main, main_body. by rewrite Hnames.
    + left. split; [done|]. eauto.
Qed.

(** X8. In the history of every run each request, search or fetch, is
    followed at once by the pause, and each pause follows a request; the
    one exception is the request whose answer could not be parsed, which is
    the last event of the run it ends. *)
Theorem request_then_pause (net : Net) (input_path : option Reader) (limit : option Z)
    (tr : list event) (r : result (list (list string))) :
  main net input_path limit = (tr, r) →
  (∀ i e, tr !! i = Some e → is_call e →
     tr !! S i = Some Sleep ∨ (S i = List.length tr ∧ r = Raise ParseError))
  ∧ (∀ j, tr !! j = Some Sleep → ∃ i e, j = S i ∧ tr !! i = Some e ∧ is_call e).
Proof.
  intros Hrun. destruct input_path as [reader|].
  2: { injection Hrun as <- <-. split; [intros i e Hi|intros j Hi]; by rewrite lookup_nil in Hi. }
  destruct (main_cases net reader limit) as (st' & r' & Hrun' & Hcases).
  rewrite Hrun in Hrun'. injection Hrun' as -> ->.
  destruct Hcases as [[Hnil _] | (index_field & rest & _ & Hr)].
  { rewrite Hnil. split; [intros i e Hi|intros j Hi]; by rewrite lookup_nil in Hi. }
  destruct r' as [table|e].
  - destruct Hr as [Hsteps _].
    destruct (throttled_lookup (trace st')) as [H1 H2]; [|by eauto].
    eapply steps_throttled; [exact Hsteps|]. constructor.
  - destruct Hr as (st0 & Hsteps & Habort).
    destruct (abort_call _ _ _ _ _ Habort) as (-> & call & Hcall & Htr).
    destruct (throttled_lookup (trace st0)) as [H1 H2].
    { eapply steps_throttled; [exact Hsteps|]. constructor. }
    rewrite Htr. split.
    + intros i e Hi He. apply lookup_app_Some in Hi as [Hi|[Hlen Hi]].
      * left. apply lookup_app_l_Some. eauto.
      * apply list_lookup_singleton_Some in Hi as [Hi _]. right.
        split; [|done]. rewrite length_app. simpl. lia.
    + intros j Hj. apply lookup_app_Some in Hj as [Hj|[Hlen Hj]].
      * destruct (H2 j Hj) as (i & e & -> & Hi & He).
        exists i, e. split; [done|]. split; [by apply lookup_app_l_Some|done].
      * apply list_lookup_singleton_Some in Hj as [_ ->]. done.
Qed.

Lemma request_then_pause_witness :
  [Resolve ("sci", "Solanum lycopersicum"); Search "Solanum lycopersicum"; Sleep;
   Fetch "4081"; Sleep; Resolve ("row", "2")] !! 4%nat = Some Sleep.
Proof.
  destruct (request_then_pause demo_net (Some (demo_reader "id")) None
    [Resolve ("sci", "Solanum lycopersicum"); Search "Solanum lycopersicum"; Sleep;
     Fetch "4081"; Sleep; Resolve ("row", "2")]
    (Ok [["id"; "food_com"; "food_sci"; "synonyms_open_tree_of_life";
          "synonyms_wiki_search"; "synonyms_ncbi"];
         ["1"; "tomato"; "Solanum lycopersicum"; "a"; "b";
          "Lycopersicon esculentum; tomato"];
         ["2"; ""; "Solanum_lycopersicum"; "a"; "b";
          "Lycopersicon esculentum; tomato"];
         ["3"; ""; ""; "a"; "b"; ""]])) as [H _].
  { vm_compute. reflexivity. }
  destruct (H 3%nat (Fetch "4081") eq_refl I) as [Hs | [Hl Hr]].
  - exact Hs.
  - discriminate Hl.
Defined.

(** ** What is searched and what is fetched *)

Lemma enumerate_elem {A} (l : list A) (start idx : Z) (x : A) :
  (idx, x) ∈ enumerate start l → x ∈ l.
Proof.
  revert start. induction l as [|y l IH]; intros start; simpl.
  - by intros ?%elem_of_nil.
  - intros [[= _ ->] | Hin]%elem_of_cons; [by left|]. right. by eapply IH.
Qed.

Lemma candidate_nonempty (scientific common q : string) :
  q ∈ candidate_queries scientific common → q ≠ "".
Proof.
  unfold candidate_queries. rewrite filter_truthy.
  destruct (ordered_fromkeys_dedup
    (filter (λ c, c ≠ "") (raw_candidates scientific common))) as (_ & Hel & _).
  rewrite Hel, list_elem_of_filter. tauto.
Qed.

(** A candidate of the pre-scan table is a candidate of a processed row. *)
Lemma prescan_candidate (rows : list Row) (key : Key) (q : string) :
  candidate_of (prescan rows) key q →
  q ≠ "" ∧ ∃ idx row, (idx, row) ∈ enumerate 0 rows
    ∧ prescan_key idx row = key ∧ q ∈ row_queries row.
Proof.
  intros (queries & Hqs & Hq).
  destruct (prescan_fold_origin _ _ _ _ Hqs) as [Hd | (idx & row & Hin & Hkey & <- & _)].
  { by rewrite lookup_empty in Hd. }
  split; [by eapply candidate_nonempty|]. eauto.
Qed.

Lemma step_searches (net : Net) (nc : gmap Key (list string)) (st st' : State) (q : string) :
  step net nc st st' → q ∈ searches (trace st') →
  q ∈ searches (trace st) ∨ ∃ key, candidate_of nc key q.
Proof.
  destruct 1; simpl; rewrite ?searches_snoc, ?app_nil_r; auto.
  intros [Hq | ->%list_elem_of_singleton]%elem_of_app; eauto.
Qed.

Lemma steps_searches (net : Net) (nc : gmap Key (list string)) (st st' : State) (q : string) :
  rtc (step net nc) st st' → q ∈ searches (trace st') →
  q ∈ searches (trace st) ∨ ∃ key, candidate_of nc key q.
Proof.
  induction 1 as [|st st1 st2 Hstep _ IH]; [auto|]. intros Hq.
  destruct (IH Hq) as [Hq1|?]; [|auto]. by eapply step_searches.
Qed.

Lemma abort_searches (net : Net) (nc : gmap Key (list string)) (st0 st' : State)
    (e : exn) (q : string) :
  abort net nc st0 st' e → q ∈ searches (trace st') →
  q ∈ searches (trace st0) ∨ ∃ key, candidate_of nc key q.
Proof.
  destruct 1; simpl; rewrite ?searches_snoc, ?app_nil_r; auto.
  intros [Hq | ->%list_elem_of_singleton]%elem_of_app; eauto.
Qed.

(** X9. Every query searched in a run is a candidate of one of the rows
    processed, and is never the empty string. *)
Theorem searches_are_candidates (net : Net) (reader : Reader) (limit : option Z)
    (tr : list event) (r : result (list (list string))) (q : string) :
  main net (Some reader) limit = (tr, r) →
  q ∈ searches tr →
  q ≠ "" ∧ ∃ row, row ∈ limited_rows reader limit ∧ q ∈ row_queries row.
Proof.
  intros Hrun Hq. destruct (main_cases net reader limit) as (st' & r' & Hrun' & Hcases).
  rewrite Hrun in Hrun'. injection Hrun' as -> ->.
  destruct Hcases as [[Hnil _] | (index_field & rest & _ & Hr)].
  { rewrite Hnil in Hq. by apply elem_of_nil in Hq. }
  assert (∃ key, candidate_of (prescan (limited_rows reader limit)) key q)
    as [key Hcand].
  { destruct r' as [table|e].
    - destruct Hr as [Hsteps _].
      destruct (steps_searches _ _ _ _ _ Hsteps Hq) as [Hq0|?]; [|done].
      by apply elem_of_nil in Hq0.
    - destruct Hr as (st0 & Hsteps & Habort).
      destruct (abort_searches _ _ _ _ _ _ Habort Hq) as [Hq0|?]; [|done].
      destruct (steps_searches _ _ _ _ _ Hsteps Hq0) as [Hq1|?]; [|done].
      by apply elem_of_nil in Hq1. }
  destruct (prescan_candidate _ _ _ Hcand) as (Hne & idx & row & Hin & _ & Hrow).
  split; [done|]. exists row. split; [by eapply enumerate_elem|done].
Qed.

Lemma searches_are_candidates_witness :
  "Solanum lycopersicum" ≠ ""
  ∧ ∃ row, row ∈ limited_rows (demo_reader "id") None
      ∧ "Solanum lycopersicum" ∈ row_queries row.
Proof.
  apply (searches_are_candidates demo_net (demo_reader "id") None
    (main demo_net (Some (demo_reader "id")) None).1
    (main demo_net (Some (demo_reader "id")) None).2).
  - reflexivity.
  - vm_compute. left.
Defined.

Lemma lookup_snoc1 {A} (l : list A) (a x : A) (j : nat) :
  (l ++ [a]) !! j = Some x → l !! j = Some x ∨ (j = List.length l ∧ x = a).
Proof.
  intros [?|[Hlen Hj]]%lookup_app_Some; [by left|right].
  apply list_lookup_singleton_Some in Hj as [? <-]. split; [lia|done].
Qed.

Lemma lookup_snoc2 {A} (l : list A) (a b x : A) (j : nat) :
  ((l ++ [a]) ++ [b]) !! j = Some x →
  l !! j = Some x ∨ (j = List.length l ∧ x = a) ∨ x = b.
Proof.
  intros [Hj|[-> ->]]%lookup_snoc1; [|by right; right].
  apply lookup_snoc1 in Hj as [?|[-> ->]]; [by left|by right; left].
Qed.

Lemma search_found_mono (net : Net) (tr tr' : list event) (i : nat) (q t : string) :
  search_found net tr i q t → tr `prefix_of` tr' → search_found net tr' i q t.
Proof.
  intros (Hi & body & Hans & Hread) Hpre. split; [by eapply prefix_lookup_Some|].
  exists body. split; [|done]. destruct Hpre as [k ->].
  rewrite take_app_le; [done|]. apply lookup_lt_Some in Hi. lia.
Qed.

Lemma fetch_read_mono (net : Net) (tr tr' : list event) (j : nat) (t s : string) :
  fetch_read net tr j t s → tr `prefix_of` tr' → fetch_read net tr' j t s.
Proof.
  intros (Hj & Hans) Hpre. split; [by eapply prefix_lookup_Some|].
  destruct Hpre as [k ->].
  rewrite take_app_le; [done|]. apply lookup_lt_Some in Hj. lia.
Qed.

Lemma found_inv_initial (net : Net) (nc : gmap Key (list string)) :
  found_inv net nc initial_state.
Proof.
  split; [|split; [|split]]; simpl.
  - intros q t H. by rewrite lookup_empty in H.
  - intros k t H. by rewrite lookup_empty in H.
  - intros j t H. by rewrite lookup_nil in H.
  - intros t s H. by rewrite lookup_empty in H.
Qed.

Lemma found_inv_step (net : Net) (nc : gmap Key (list string)) (st st' : State) :
  step net nc st st' → found_inv net nc st → found_inv net nc st'.
Proof.
  intros Hstep (Hq & Hk & Hf & Hs).
  destruct Hstep as [st key Hnew | st key query found Hcand Hnew Hanswer
                     | st key taxid Hnew Horigin
                     | st key taxid names Hne Hkey Hnew Hanswer | st d];
    unfold found_inv, exec; simpl.
  - (* the candidate loop is entered *)
    assert (trace st `prefix_of` trace st ++ [Resolve key]) as Hpre
      by (by apply prefix_app_r).
    split; [|split; [done|split]].
    + intros q t Hqt. destruct (Hq q t Hqt) as [i Hi]. exists i.
      by eapply search_found_mono.
    + intros j t [Hj|[_ ?]]%lookup_snoc1; [|done].
      destruct (Hf j t Hj) as (? & i & q & ? & Hi). split; [done|].
      exists i, q. split; [done|]. by eapply search_found_mono.
    + intros t s Hts. destruct (Hs t s Hts) as [j Hj]. exists j.
      by eapply fetch_read_mono.
  - (* a search *)
    assert (trace st `prefix_of` (trace st ++ [Search query]) ++ [Sleep]) as Hpre
      by (rewrite <- app_assoc; by apply prefix_app_r).
    split; [|split; [|split]].
    + intros q t Hqt. destruct (decide (query = q)) as [<-|Hneq].
      * rewrite lookup_insert_eq in Hqt. injection Hqt as ->.
        exists (List.length (trace st)). unfold search_answer in Hanswer.
        destruct (esearch net (trace st) (query ++ "[All Names]")%string)
          as [|body] eqn:Hnet; [done|].
        split.
        -- rewrite <- app_assoc. by rewrite lookup_app_r, Nat.sub_diag by lia.
        -- exists body. rewrite <- app_assoc, take_app_length. by split.
      * rewrite lookup_insert_ne in Hqt by done.
        destruct (Hq q t Hqt) as [i Hi]. exists i. by eapply search_found_mono.
    + intros k t Hkt. destruct (Hk k t Hkt) as (q & ? & Hqt). exists q. split; [done|].
      rewrite lookup_insert_ne; [done|]. intros <-. congruence.
    + intros j t [Hj|[[_ ?]|?]]%lookup_snoc2; [|done|done].
      destruct (Hf j t Hj) as (? & i & q & ? & Hi). split; [done|].
      exists i, q. split; [done|]. by eapply search_found_mono.
    + intros t s Hts. destruct (Hs t s Hts) as [j Hj]. exists j.
      by eapply fetch_read_mono.
  - (* the identifier of a key is stored *)
    split; [done|]. split; [|split; [done|done]].
    intros k t Hkt. destruct (decide (key = k)) as [<-|Hneq].
    + rewrite lookup_insert_eq in Hkt. injection Hkt as ->.
      destruct Horigin as [?|(q & ? & ?)]; [done|eauto].
    + rewrite lookup_insert_ne in Hkt by done. eauto.
  - (* a fetch *)
    assert (trace st `prefix_of` (trace st ++ [Fetch taxid]) ++ [Sleep]) as Hpre
      by (rewrite <- app_assoc; by apply prefix_app_r).
    split; [|split; [done|split]].
    + intros q t Hqt. destruct (Hq q t Hqt) as [i Hi]. exists i.
      by eapply search_found_mono.
    + intros j t [Hj|[[-> [= ->]]|?]]%lookup_snoc2; [| |done].
      * destruct (Hf j t Hj) as (? & i & q & ? & Hi). split; [done|].
        exists i, q. split; [done|]. by eapply search_found_mono.
      * split; [done|]. destruct (Hk key taxid Hkey) as (q & _ & Hqt).
        destruct (Hq q taxid Hqt) as [i Hi]. exists i, q.
        split; [destruct Hi as [Hi _]; by apply lookup_lt_Some in Hi|].
        by eapply search_found_mono.
    + intros t s Hts. destruct (decide (taxid = t)) as [<-|Hneq].
      * rewrite lookup_insert_eq in Hts. injection Hts as <-.
        exists (List.length (trace st)). split.
        -- rewrite <- app_assoc. by rewrite lookup_app_r, Nat.sub_diag by lia.
        -- rewrite <- app_assoc, take_app_length. unfold fetch_answer in Hanswer.
           destruct (efetch net (trace st) taxid) as [|body] eqn:Hnet.
           ++ injection Hanswer as <-. by left.
           ++ right. eauto.
      * rewrite lookup_insert_ne in Hts by done.
        destruct (Hs t s Hts) as [j Hj]. exists j. by eapply fetch_read_mono.
  - done.
Qed.

Lemma found_inv_steps (net : Net) (nc : gmap Key (list string)) (st st' : State) :
  rtc (step net nc) st st' → found_inv net nc st → found_inv net nc st'.
Proof. induction 1; eauto using found_inv_step. Qed.

Lemma found_origin (net : Net) (nc : gmap Key (list string)) (st : State)
    (k : Key) (t : string) :
  found_inv net nc st → taxid_cache st !! k = Some (Some t) →
  ∃ q i, candidate_of nc k q ∧ search_found net (trace st) i q t.
Proof.
  intros (Hq & Hk & _) Hkt. destruct (Hk k t Hkt) as (q & Hcand & Hqt).
  destruct (Hq q t Hqt) as [i Hi]. eauto.
Qed.

(** X10. Every identifier fetched in a run is non-empty and was read, in
    the same run and before the fetch, from the answer to a search: the
    history has that search at an earlier position, and the answer of the
    service to it, given the history up to that position, reads as this
    identifier. *)
Theorem fetched_ids_were_found (net : Net) (reader : Reader) (limit : option Z)
    (tr : list event) (r : result (list (list string))) (j : nat) (t : string) :
  main net (Some reader) limit = (tr, r) →
  tr !! j = Some (Fetch t) →
  t ≠ ""
  ∧ ∃ i q body,
      (i < j)%nat
      ∧ tr !! i = Some (Search q)
      ∧ esearch net (take i tr) (q ++ "[All Names]")%string = Response body
      ∧ search_taxid_read body = Ok (Some t).
Proof.
  intros Hrun Ht.
  assert (t ≠ "" ∧ ∃ i q, (i < j)%nat ∧ search_found net tr i q t)
    as (Hne & i & q & Hlt & Hi & body & ? & ?); [|eauto 10].
  destruct (main_cases net reader limit) as (st' & r' & Hrun' & Hcases).
  rewrite Hrun in Hrun'. injection Hrun' as -> ->.
  destruct Hcases as [[Hnil _] | (index_field & rest & _ & Hr)].
  { rewrite Hnil in Ht. by rewrite lookup_nil in Ht. }
  destruct r' as [table|e].
  - destruct Hr as [Hsteps _].
    pose proof (found_inv_steps _ _ _ _ Hsteps (found_inv_initial _ _)) as Hinv.
    by apply Hinv.
  - destruct Hr as (st0 & Hsteps & Habort).
    pose proof (found_inv_steps _ _ _ _ Hsteps (found_inv_initial _ _)) as Hinv.
    destruct Habort as [st key query e _ _ _ | st key taxid e Hne Hkey _ _];
      unfold exec in Ht; simpl in Ht; unfold exec; simpl.
    + apply lookup_snoc1 in Ht as [Hj|[_ ?]]; [|done].
      destruct (proj1 (proj2 (proj2 Hinv)) j t Hj) as (? & i & q & ? & Hi).
      split; [done|]. exists i, q. split; [done|].
      eapply search_found_mono; [exact Hi|by apply prefix_app_r].
    + apply lookup_snoc1 in Ht as [Hj|[-> [= ->]]].
      * destruct (proj1 (proj2 (proj2 Hinv)) j t Hj) as (? & i & q & ? & Hi).
        split; [done|]. exists i, q. split; [done|].
        eapply search_found_mono; [exact Hi|by apply prefix_app_r].
      * split; [done|].
        destruct (found_origin net _ st key taxid Hinv Hkey) as (q & i & _ & Hi).
        exists i, q. split; [destruct Hi as [Hi _]; by apply lookup_lt_Some in Hi|].
        eapply search_found_mono; [exact Hi|by apply prefix_app_r].
Qed.

Lemma fetched_ids_were_found_witness :
  "4081" ≠ ""
  ∧ ∃ i q body,
      (i < 3)%nat
      ∧ (main demo_net (Some (demo_reader "id")) None).1 !! i = Some (Search q)
      ∧ esearch demo_net (take i (main demo_net (Some (demo_reader "id")) None).1)
          (q ++ "[All Names]")%string = Response body
      ∧ search_taxid_read body = Ok (Some "4081").
Proof.
  apply (fetched_ids_were_found demo_net (demo_reader "id") None
    (main demo_net (Some (demo_reader "id")) None).1
    (main demo_net (Some (demo_reader "id")) None).2).
  - reflexivity.
  - vm_compute. reflexivity.
Defined.

(** ** The new field *)

Lemma main_pass_key_enumerate (i : nat) (row : Row) :
  main_pass_key (1 + Z.of_nat i) row = prescan_key (Z.of_nat i) row.
Proof. unfold main_pass_key, prescan_key. f_equal. lia. Qed.

(** A table written by [main]: the state it was written from, where the
    caches hold what the history found, and the line of every row. *)
Lemma main_table_rows (net : Net) (reader : Reader) (limit : option Z)
    (tr : list event) (table : list (list string)) :
  main net (Some reader) limit = (tr, Ok table) →
  let rows := limited_rows reader limit in
  ∃ st' index_field rest lines,
    tr = trace st'
    ∧ fieldnames reader = Some (index_field :: rest)
    ∧ table = output_fieldnames index_field :: lines
    ∧ found_inv net (prescan rows) st'
    ∧ List.length lines = List.length rows
    ∧ ∀ i row, rows !! i = Some row →
        ∃ synonyms_ncbi,
          lines !! i = Some (output_cells index_field row synonyms_ncbi)
          ∧ row_settled st' (prescan_key (Z.of_nat i) row) synonyms_ncbi.
Proof.
  intros Hrun rows. destruct (main_cases net reader limit) as (st' & r' & Hrun' & Hcases).
  rewrite Hrun in Hrun'. injection Hrun' as -> <-.
  destruct Hcases as [(_ & e & ? & _) | (index_field & rest & Hnames & Hr)]; [done|].
  destruct Hr as (Hsteps & lines & -> & Hall).
  exists st', index_field, rest, lines.
  split; [done|]. split; [done|]. split; [done|]. split; [|split].
  - eapply found_inv_steps; [exact Hsteps|apply found_inv_initial].
  - apply Forall2_length in Hall. by rewrite enumerate_length in Hall.
  - intros i row Hrow.
    assert (enumerate 1 rows !! i = Some (1 + Z.of_nat i, row)) as Hi
      by (by rewrite enumerate_lookup, Hrow).
    destruct (Forall2_lookup_l _ _ _ _ _ Hall Hi) as (line & Hline & ncbi & -> & Hset).
    exists ncbi. split; [done|]. simpl in Hset. by rewrite main_pass_key_enumerate in Hset.
Qed.

(** X11. In every table written, the new field of a line is either
    empty or the names of a fetch of this run, joined with a semicolon and
    a space: the history has a fetch of some identifier at some position,
    the service answered it, given the history up to that position, with a
    text that [extract_synonyms] reads as these names. *)
Theorem field_is_joined_synonyms (net : Net) (reader : Reader) (limit : option Z)
    (tr : list event) (table : list (list string)) (i : nat) (line : list string) :
  main net (Some reader) limit = (tr, Ok table) →
  table !! S i = Some line →
  ∃ synonyms_ncbi,
    line !! 5%nat = Some synonyms_ncbi
    ∧ (synonyms_ncbi = ""
       ∨ ∃ j taxid body names,
           tr !! j = Some (Fetch taxid)
           ∧ efetch net (take j tr) taxid = Response body
           ∧ extract_synonyms body = Ok names
           ∧ synonyms_ncbi = PyStr.join "; " names).
Proof.
  intros Hrun Hline.
  destruct (main_table_rows _ _ _ _ _ Hrun)
    as (st' & index_field & rest & lines & -> & _ & -> & Hinv & Hlen & Hrows).
  simpl in Hline.
  destruct (limited_rows reader limit !! i) as [row|] eqn:Hrow.
  2: { apply lookup_ge_None in Hrow. apply lookup_lt_Some in Hline. lia. }
  destruct (Hrows i row Hrow) as (ncbi & Hi & taxid & _ & Hfield & Hsyn).
  rewrite Hi in Hline. injection Hline as <-.
  exists ncbi. split; [done|]. unfold field_value in Hfield.
  destruct (truthy_opt taxid); [|by left].
  destruct (Hsyn eq_refl) as [s Hs]. rewrite Hs in Hfield. simpl in Hfield. subst ncbi.
  destruct Hinv as (_ & _ & _ & Hcache).
  destruct (Hcache _ _ Hs) as (j & Hj & [[_ ->] | (body & names & ? & ? & ?)]);
    [by left|right]. eauto 10.
Qed.

Lemma field_is_joined_synonyms_witness :
  ∃ j taxid body names,
    (main demo_net (Some (demo_reader "id")) None).1 !! j = Some (Fetch taxid)
    ∧ efetch demo_net
        (take j (main demo_net (Some (demo_reader "id")) None).1) taxid
      = Response body
    ∧ extract_synonyms body = Ok names
    ∧ "Lycopersicon esculentum; tomato" = PyStr.join "; " names.
Proof.
  destruct (field_is_joined_synonyms demo_net (demo_reader "id") None
    (main demo_net (Some (demo_reader "id")) None).1
    [["id"; "food_com"; "food_sci"; "synonyms_open_tree_of_life";
      "synonyms_wiki_search"; "synonyms_ncbi"];
     ["1"; "tomato"; "Solanum lycopersicum"; "a"; "b";
      "Lycopersicon esculentum; tomato"];
     ["2"; ""; "Solanum_lycopersicum"; "a"; "b";
      "Lycopersicon esculentum; tomato"];
     ["3"; ""; ""; "a"; "b"; ""]] 0%nat
    ["1"; "tomato"; "Solanum lycopersicum"; "a"; "b";
     "Lycopersicon esculentum; tomato"]) as (s & Hs & [-> | H]).
  - vm_compute. reflexivity.
  - reflexivity.
  - discriminate Hs.
  - injection Hs as <-. exact H.
Defined.

(** X12. In every table written, two rows with the same key have the same
    new field. *)
Theorem same_key_same_field (net : Net) (reader : Reader) (limit : option Z)
    (tr : list event) (table : list (list string)) (i j : nat) (rowi rowj : Row)
    (linei linej : list string) :
  main net (Some reader) limit = (tr, Ok table) →
  limited_rows reader limit !! i = Some rowi →
  limited_rows reader limit !! j = Some rowj →
  table !! S i = Some linei →
  table !! S j = Some linej →
  prescan_key (Z.of_nat i) rowi = prescan_key (Z.of_nat j) rowj →
  linei !! 5%nat = linej !! 5%nat.
Proof.
  intros Hrun Hrowi Hrowj Hlinei Hlinej Hkey.
  destruct (main_table_rows _ _ _ _ _ Hrun)
    as (st' & index_field & rest & lines & -> & _ & -> & _ & _ & Hrows).
  simpl in Hlinei, Hlinej.
  destruct (Hrows i rowi Hrowi) as (ncbi & Hi & taxid & Htaxid & -> & _).
  destruct (Hrows j rowj Hrowj) as (ncbi' & Hj & taxid' & Htaxid' & -> & _).
  rewrite Hi in Hlinei. rewrite Hj in Hlinej.
  injection Hlinei as <-. injection Hlinej as <-.
  rewrite Hkey in Htaxid. rewrite Htaxid in Htaxid'. by injection Htaxid' as <-.
Qed.

Lemma same_key_same_field_witness :
  ["1"; "tomato"; "Solanum lycopersicum"; "a"; "b";
   "Lycopersicon esculentum; tomato"] !! 5%nat
  = ["2"; ""; "Solanum_lycopersicum"; "a"; "b";
     "Lycopersicon esculentum; tomato"] !! 5%nat.
Proof.
  apply (same_key_same_field demo_net (demo_reader "id") None
    (main demo_net (Some (demo_reader "id")) None).1
    [["id"; "food_com"; "food_sci"; "synonyms_open_tree_of_life";
      "synonyms_wiki_search"; "synonyms_ncbi"];
     ["1"; "tomato"; "Solanum lycopersicum"; "a"; "b";
      "Lycopersicon esculentum; tomato"];
     ["2"; ""; "Solanum_lycopersicum"; "a"; "b";
      "Lycopersicon esculentum; tomato"];
     ["3"; ""; ""; "a"; "b"; ""]] 0%nat 1%nat
    (demo_row "id" "1" "Solanum lycopersicum" "tomato")
    (demo_row "id" "2" "Solanum_lycopersicum" "")).
  - vm_compute. reflexivity.
  - reflexivity.
  - reflexivity.
  - reflexivity.
  - reflexivity.
  - vm_compute. reflexivity.
Defined.

(** ** Rows without an identifier *)





Lemma row_tag_no_queries (idx : Z) (row : Row) :
  (prescan_key idx row).1 = "row" ↔ row_queries row = [].
Proof.
  unfold prescan_key, row_queries. by rewrite build_key_row_tag, candidate_queries_nil.
Qed.

(** X14. In every table written, a row whose two cleaned names are empty
    has no candidate and an empty new field. *)
Theorem blank_row_empty_field (net : Net) (reader : Reader) (limit : option Z)
    (tr : list event) (table : list (list string)) (i : nat) (row : Row) :
  main net (Some reader) limit = (tr, Ok table) →
  limited_rows reader limit !! i = Some row →
  format_scientific_name (row_get row "food_sci") = "" →
  format_common_name (row_get row "food_com") = "" →
  row_queries row = []
  ∧ ∃ line, table !! S i = Some line ∧ line !! 5%nat = Some "".
Proof.
  intros Hrun Hrow Hsci Hcom.
  assert (row_queries row = []) as Hnone
    by (unfold row_queries; by apply candidate_queries_nil).
  split; [done|].
  destruct (main_table_rows _ _ _ _ _ Hrun)
    as (st' & index_field & rest & lines & -> & _ & -> & Hinv & _ & Hrows).
  destruct (Hrows i row Hrow) as (ncbi & Hi & taxid & Hkt & -> & _).
  exists (output_cells index_field row (field_value st' taxid)).
  split; [done|]. simpl. f_equal. unfold field_value.
  destruct (truthy_opt taxid) eqn:Htruthy; [|done].
  destruct taxid as [t|]; [|done].
  destruct (found_origin net _ st' _ t Hinv Hkt) as (q & _ & Hcand & _).
  destruct (prescan_candidate _ _ _ Hcand) as (_ & idx' & row' & _ & Hkey & Hq).
  assert (row_queries row' = []) as Hnone'.
  { apply (row_tag_no_queries idx'). rewrite Hkey.
    by apply (row_tag_no_queries (Z.of_nat i)). }
  rewrite Hnone' in Hq. by apply elem_of_nil in Hq.
Qed.

Lemma blank_row_empty_field_witness :
  row_queries (demo_row "id" "3" "" "") = []
  ∧ ∃ line,
      [["id"; "food_com"; "food_sci"; "synonyms_open_tree_of_life";
        "synonyms_wiki_search"; "synonyms_ncbi"];
       ["1"; "tomato"; "Solanum lycopersicum"; "a"; "b";
        "Lycopersicon esculentum; tomato"];
       ["2"; ""; "Solanum_lycopersicum"; "a"; "b";
        "Lycopersicon esculentum; tomato"];
       ["3"; ""; ""; "a"; "b"; ""]] !! 3%nat = Some line
      ∧ line !! 5%nat = Some "".
Proof.
  apply (blank_row_empty_field demo_net (demo_reader "id") None
    (main demo_net (Some (demo_reader "id")) None).1).
  - vm_compute. reflexivity.
  - reflexivity.
  - reflexivity.
  - reflexivity.
Defined.

(** ** How a run can fail *)




(** ** The slice *)

(** X16. Whatever the limit, negative ones included, the rows processed
    are a prefix of the table: rows are never reordered, repeated or made
    up. With limit N there are min(N, n) of them when N is not negative and
    max(0, n + N) when it is, n being the number of rows. *)
Theorem limited_rows_prefix (reader : Reader) (limit : option Z) :
  limited_rows reader limit `prefix_of` records reader
  ∧ ∀ N, limit = Some N →
      Z.of_nat (List.length (limited_rows reader limit))
      = if N <? 0 then Z.max 0 (Z.of_nat (List.length (records reader)) + N)
        else Z.min N (Z.of_nat (List.length (records reader))).
Proof.
  split.
  - destruct limit as [N|]; simpl; [|done]. unfold slice_to.
    destruct (N <? 0); apply prefix_take.
  - intros N ->. simpl. unfold slice_to.
    destruct (N <? 0) eqn:HN; rewrite length_take.
    + apply Z.ltb_lt in HN. lia.
    + apply Z.ltb_ge in HN. lia.
Qed.

Lemma limited_rows_prefix_witness :
  Z.of_nat (List.length (limited_rows (demo_reader "id") (Some (-2)))) = 1
  ∧ Z.of_nat (List.length (limited_rows (demo_reader "id") (Some (-5)))) = 0.
Proof.
  split.
  - destruct (limited_rows_prefix (demo_reader "id") (Some (-2))) as [_ H].
    exact (H (-2) eq_refl).
  - destruct (limited_rows_prefix (demo_reader "id") (Some (-5))) as [_ H].
    exact (H (-5) eq_refl).
Defined.

(** ** The candidate table *)

Lemma first_stored_shift (start : Z) (row0 : Row) (rows : list Row) (key : Key)
    (queries : list string) :
  prescan_key start row0 ≠ key →
  first_stored (start + 1) rows key queries
  ↔ first_stored start (row0 :: rows) key queries.
Proof.
  intros Hne. split.
  - intros (j & row & Hrow & Hkey & Hq & Hnil & Hfirst).
    exists (S j), row. split; [done|].
    split; [by replace (start + Z.of_nat (S j)) with (start + 1 + Z.of_nat j) by lia|].
    split; [done|]. split; [done|].
    intros [|j'] row' Hlt Hrow'; simpl in Hrow'.
    + injection Hrow' as <-. by rewrite Z.add_0_r.
    + replace (start + Z.of_nat (S j')) with (start + 1 + Z.of_nat j') by lia.
      apply Hfirst; [lia|done].
  - intros ([|j] & row & Hrow & Hkey & Hq & Hnil & Hfirst); simpl in Hrow.
    + injection Hrow as <-. by rewrite Z.add_0_r in Hkey.
    + exists j, row. split; [done|].
      split; [by replace (start + 1 + Z.of_nat j) with (start + Z.of_nat (S j)) by lia|].
      split; [done|]. split; [done|].
      intros j' row' Hlt Hrow'.
      replace (start + 1 + Z.of_nat j') with (start + Z.of_nat (S j')) by lia.
      apply Hfirst; [lia|done].
Qed.

Lemma first_stored_head (start : Z) (row0 : Row) (rows : list Row)
    (queries : list string) :
  row_queries row0 ≠ [] →
  first_stored start (row0 :: rows) (prescan_key start row0) queries
  ↔ queries = row_queries row0.
Proof.
  intros Hq0. split.
  - intros ([|j] & row & Hrow & Hkey & Hq & Hnil & Hfirst); simpl in Hrow.
    + by injection Hrow as <-.
    + destruct (Hfirst 0%nat row0); [lia|done|]. by rewrite Z.add_0_r.
  - intros ->. exists 0%nat, row0. split; [done|].
    split; [by rewrite Z.add_0_r|]. split; [done|]. split; [done|]. intros; lia.
Qed.

Lemma first_stored_key (start : Z) (rows : list Row) (key : Key)
    (queries : list string) :
  first_stored start rows key queries → key.1 ≠ "row".
Proof.
  intros (j & row & _ & <- & <- & Hnil & _) Htag.
  by apply row_tag_no_queries in Htag.
Qed.

Lemma prescan_fold_first (rows : list Row) (d : gmap Key (list string)) (start : Z)
    (key : Key) (queries : list string) :
  foldl prescan_step d (enumerate start rows) !! key = Some queries
  ↔ d !! key = Some queries
    ∨ (d !! key = None ∧ first_stored start rows key queries).
Proof.
  revert d start. induction rows as [|row0 rows IH]; intros d start; simpl.
  - split; [auto|]. intros [?|[_ (j & row & Hrow & _)]]; [done|].
    by rewrite lookup_nil in Hrow.
  - rewrite IH. unfold prescan_step.
    destruct (row_queries row0) as [|q0 qs0] eqn:Hq0.
    + assert (first_stored (start + 1) rows key queries
                ↔ first_stored start (row0 :: rows) key queries) as Hshift.
      { split; intros Hfirst;
          (assert (prescan_key start row0 ≠ key) as Hne
             by (intros Hkey; apply first_stored_key in Hfirst; apply Hfirst;
                 rewrite <- Hkey; by apply row_tag_no_queries));
          by apply (first_stored_shift start row0 rows key queries Hne). }
      by rewrite Hshift.
    + unfold setdefault. destruct (d !! prescan_key start row0) as [v|] eqn:Hold.
      * assert (d !! key = None → prescan_key start row0 ≠ key) as Hne
          by (intros Hnone Hkey; congruence).
        split; (intros [?|[Hnone Hfirst]]; [by left|right; split; [done|]]);
          by apply (first_stored_shift start row0 rows key queries (Hne Hnone)).
      * destruct (decide (prescan_key start row0 = key)) as [<-|Hne].
        -- rewrite lookup_insert_eq, Hold.
           assert (row_queries row0 ≠ []) as Hq0' by (by rewrite Hq0).
           pose proof (first_stored_head start row0 rows queries Hq0') as Hhead.
           rewrite Hq0 in Hhead. split.
           ++ intros [[= <-] | [? _]]; [|done]. right. split; [done|]. by apply Hhead.
           ++ intros [?|[_ Hfirst]]; [done|]. left. f_equal. symmetry. by apply Hhead.
        -- rewrite lookup_insert_ne by done.
           split; (intros [?|[Hnone Hfirst]]; [by left|right; split; [done|]]);
             by apply (first_stored_shift start row0 rows key queries Hne).
Qed.

(** X17. The candidate table of the pre-scan holds under a key the
    candidate list of the first row that has this key, when the list is not
    empty, and nothing else: a later row with the same key never replaces
    it, and a key of the row-index kind is never in the table. *)
Theorem prescan_first_row (rows : list Row) (key : Key) (queries : list string) :
  (prescan rows !! key = Some queries
   ↔ ∃ j row,
       rows !! j = Some row
       ∧ prescan_key (Z.of_nat j) row = key
       ∧ row_queries row = queries
       ∧ queries ≠ []
       ∧ ∀ j' row', (j' < j)%nat → rows !! j' = Some row' →
           prescan_key (Z.of_nat j') row' ≠ key)
  ∧ (key.1 = "row" → prescan rows !! key = None).
Proof.
  assert (prescan rows !! key = Some queries ↔ first_stored 0 rows key queries) as Hfirst.
  { unfold prescan. rewrite prescan_fold_first, lookup_empty. split.
    - intros [?|[_ ?]]; [done|done].
    - intros ?. right. by split. }
  split; [exact Hfirst|].
  intros Htag. destruct (prescan rows !! key) as [qs|] eqn:Hlook; [|done].
  unfold prescan in Hlook. apply prescan_fold_first in Hlook as [Hd|[_ Hf]].
  - by rewrite lookup_empty in Hd.
  - by apply first_stored_key in Hf.
Qed.

Lemma prescan_first_row_witness :
  prescan (demo_rows "id") !! ("row", "2") = None
  ∧ prescan (demo_rows "id") !! ("sci", "Solanum lycopersicum")
    = Some ["Solanum lycopersicum"; "tomato"].
Proof.
  split.
  - apply (prescan_first_row (demo_rows "id") ("row", "2") []). reflexivity.
  - apply (prescan_first_row (demo_rows "id") ("sci", "Solanum lycopersicum")
             ["Solanum lycopersicum"; "tomato"]).
    exists 0%nat, (demo_row "id" "1" "Solanum lycopersicum" "tomato").
    split; [reflexivity|]. split; [vm_compute; reflexivity|].
    split; [vm_compute; reflexivity|]. split; [discriminate|]. intros; lia.
Defined.

(** ** The first candidate with an identifier *)

Lemma all_without_id_mono (st st' : State) (queries : list string) :
  query_cache st ⊆ query_cache st' → all_without_id st queries → all_without_id st' queries.
Proof.
  intros Hsub Hall. unfold all_without_id. eapply Forall_impl; [exact Hall|].
  intros q (v & Hv & ?). exists v. split; [by eapply lookup_weaken|done].
Qed.

Lemma resolve_loop_first (net : Net) (queries : list string) (taxid0 : option string)
    (st st' : State) (taxid : option string) :
  truthy_opt taxid0 = false →
  resolve_loop net queries taxid0 st = (st', Ok taxid) →
  first_success st st' queries taxid ∧ (queries = [] → taxid = taxid0).
Proof.
  revert taxid0 st. induction queries as [|query rest IH]; intros taxid0 st Hfalse Hrun.
  - injection Hrun as <- <-. split; [|done]. exists [], []. split; [done|].
    split; [done|]. split; [|split].
    + intros x. split; [auto|]. intros [?|[?%elem_of_nil _]]; done.
    + congruence.
    + intros _. split; [done|]. constructor.
  - split; [|done].
    assert (∀ st1 found,
      query_cache st ⊆ query_cache st1 →
      query_cache st1 !! query = Some found →
      (∀ x, x ∈ searches (trace st1)
            ↔ x ∈ searches (trace st) ∨ (x = query ∧ query_cache st !! x = None)) →
      (∀ x, x ≠ query → query_cache st1 !! x = query_cache st !! x) →
      (if truthy_opt found then λ st : State, (st, Ok found)
       else resolve_loop net rest found) st1 = (st', Ok taxid) →
      first_success st st' (query :: rest) taxid) as Hcont.
    { intros st1 found Hsub Hfound Hsearch Hother Hrest.
      destruct (truthy_opt found) eqn:Htruthy.
      - injection Hrest as <- <-. exists [query], rest. split; [done|]. split; [done|].
        split; [|split].
        + intros x. rewrite Hsearch, list_elem_of_singleton. tauto.
        + intros _. exists [], query. split; [done|]. split; [done|]. constructor.
        + congruence.
      - destruct (IH found st1 Htruthy Hrest)
          as [(tried & rest' & -> & Hsub' & Hsearch' & Hyes & Hno) _].
        exists (query :: tried), rest'. split; [done|]. split; [by etrans|].
        split; [|split].
        + intros x. rewrite Hsearch', Hsearch, elem_of_cons.
          destruct (decide (x = query)) as [->|Hne].
          * rewrite Hfound. split; [|tauto].
            intros [[?|[_ ?]]|[_ ?]]; [tauto|tauto|done].
          * rewrite (Hother x Hne). tauto.
        + intros Ht. destruct (Hyes Ht) as (pre & q & -> & Hq & Hpre).
          exists (query :: pre), q. split; [done|]. split; [done|].
          constructor; [|done]. exists found. split; [by eapply lookup_weaken|done].
        + intros Ht. destruct (Hno Ht) as (-> & Hall). split; [done|].
          constructor; [|done]. exists found. split; [by eapply lookup_weaken|done]. }
    simpl in Hrun. unfold mbind, M_bind, bind, get_state in Hrun.
    destruct (decide (query_cache st !! query = None)) as [Hnew|Hold].
    + assert (∀ found,
        (if truthy_opt found then λ st : State, (st, Ok found)
         else resolve_loop net rest found)
          {| trace := (trace st ++ [Search query]) ++ [Sleep];
             query_cache := <[query := found]> (query_cache st);
             taxid_cache := taxid_cache st;
             synonym_cache := synonym_cache st;
             updated_rows := updated_rows st |} = (st', Ok taxid) →
        first_success st st' (query :: rest) taxid) as Hcont'.
      { intros found. apply Hcont; simpl.
        - by apply insert_subseteq.
        - apply lookup_insert_eq.
        - intros x. rewrite !searches_snoc, app_nil_r, elem_of_app, list_elem_of_singleton.
          split; [intros [?| ->]; auto|intros [?|[-> _]]; auto].
        - intros x Hne. by rewrite lookup_insert_ne. }
      unfold search_taxid, mbind, M_bind, bind, get_state, emit, lift,
        set_query_cache, subscript in Hrun. unfold ret, raise in Hrun. simpl in Hrun.
      destruct (esearch net (trace st) (query ++ "[All Names]")%string) as [|body].
      * simpl in Hrun. rewrite lookup_insert_eq in Hrun. by apply (Hcont' None).
      * destruct (search_taxid_read body) as [found|e]; [|done].
        simpl in Hrun. rewrite lookup_insert_eq in Hrun. by apply (Hcont' found).
    + unfold subscript, ret in Hrun. simpl in Hrun.
      destruct (query_cache st !! query) as [found|] eqn:Hcached; [|done].
      apply (Hcont st found); try done.
      intros x. split; [auto|]. intros [?|[-> ?]]; [done|congruence].
Qed.

(** X18. When the candidate loop, entered without an identifier, ends
    normally, it has gone through the candidates in order up to the first
    one whose cached or searched result is an identifier, which it returns,
    or through all of them when none has one; of the candidates it went
    through it has searched exactly those that were not in the query cache,
    and none of the others; no entry of the query cache was replaced. *)
Theorem resolve_loop_first_success (net : Net) (queries : list string)
    (st st' : State) (taxid : option string) :
  resolve_loop net queries None st = (st', Ok taxid) →
  ∃ tried rest,
    queries = tried ++ rest
    ∧ query_cache st ⊆ query_cache st'
    ∧ (∀ x, x ∈ searches (trace st')
            ↔ x ∈ searches (trace st) ∨ (x ∈ tried ∧ query_cache st !! x = None))
    ∧ (truthy_opt taxid = true →
         ∃ pre q, tried = pre ++ [q]
           ∧ query_cache st' !! q = Some taxid ∧ all_without_id st' pre)
    ∧ (truthy_opt taxid = false → rest = [] ∧ all_without_id st' tried).
Proof. intros Hrun. by apply (resolve_loop_first net queries None). Qed.

Lemma resolve_loop_first_success_witness :
  ∃ tried rest,
    ["Foo sp."; "Foo sp"; "Foo"] = tried ++ rest
    ∧ query_cache initial_state
      ⊆ query_cache (resolve_loop demo_net ["Foo sp."; "Foo sp"; "Foo"] None initial_state).1
    ∧ (∀ x, x ∈ searches
              (trace (resolve_loop demo_net ["Foo sp."; "Foo sp"; "Foo"] None
                        initial_state).1)
            ↔ x ∈ searches (trace initial_state)
              ∨ (x ∈ tried ∧ query_cache initial_state !! x = None))
    ∧ (truthy_opt (Some "4081") = true →
         ∃ pre q, tried = pre ++ [q]
           ∧ query_cache (resolve_loop demo_net ["Foo sp."; "Foo sp"; "Foo"] None
                            initial_state).1 !! q = Some (Some "4081")
           ∧ all_without_id (resolve_loop demo_net ["Foo sp."; "Foo sp"; "Foo"] None
                               initial_state).1 pre)
    ∧ (truthy_opt (Some "4081") = false →
       rest = []
       ∧ all_without_id (resolve_loop demo_net ["Foo sp."; "Foo sp"; "Foo"] None
                           initial_state).1 tried).
Proof.
  apply (resolve_loop_first_success demo_net ["Foo sp."; "Foo sp"; "Foo"]
           initial_state).
  reflexivity.
Defined.
